(** * Commands, Tasks and variable resolution of the Renode Linux runner

    A shallow embedding of [action/command.py]: the [Command] and [Task]
    dataclasses, their construction from mappings, YAML text and multiline
    strings, the inheritance of task policy by commands and the resolution
    of [${{name}}] placeholders.

    Conventions of the embedding.
    - A Python [str] is a [string]; its characters are code points below 256.
    - A Python object is a [pyval]: [None], a [bool], an [int], a [str], a
      list, a mapping with [str] keys or a [Command].  Floats, dates and
      mappings with other keys, which a YAML text can also denote, are left
      out.
    - A Python [dict] is an association list in insertion order ([dict]),
      its keys pairwise distinct; the variable scopes, which the code only
      queries by key, are [gmap string string].
    - A raised exception is the [Raise] case of [result]; [x ← r; k] chains
      statements the way Python propagates exceptions.  An in-place update
      of an object is the returned object.
    - An attribute of a [Command] is named by an [attr], one of the six
      fields of the dataclass.  Item access with any other name, which
      Python resolves to a method, to a special attribute such as
      [__dict__] or to an attribute a caller has added, is outside the
      embedding. *)

From Stdlib Require Import ZArith Ascii.
From Stdlib Require String.
From stdpp Require Import base option list gmap strings.

Local Open Scope Z_scope.
Set Warnings "-register-all".

(** ** Python values *)

(** The [Command] dataclass.  Python does not enforce the annotations of a
    dataclass at run time and [Command] exposes its attributes through
    [__getitem__] and [__setitem__], so every attribute holds an arbitrary
    value [V]. *)
Record Command_ (V : Type) : Type := mkCommand {
  command : V;
  expect : V;
  timeout : V;
  echo : V;
  check_exit_code : V;
  should_fail : V
}.
Arguments mkCommand {V}.
Arguments command {V}.
Arguments expect {V}.
Arguments timeout {V}.
Arguments echo {V}.
Arguments check_exit_code {V}.
Arguments should_fail {V}.

(** The values that flow through [command.py]: what [yaml.safe_load] yields
    (scalars, lists, mappings with string keys) and instances of
    [Command]. *)
Inductive pyval : Type :=
| PNone
| PBool (b : bool)
| PInt (z : Z)
| PStr (s : string)
| PList (l : list pyval)
| PDict (d : list (string * pyval))
| PCommand (c : Command_ pyval).

Abbreviation Command := (Command_ pyval).
Abbreviation dict := (list (string * pyval)).

(** ** Exceptions *)

Inductive exn : Type :=
| SystemExit (msg : string)
| YAMLError
| AttributeError
| TypeError
| IndexError
| MissingValueError (field : string)
| WrongTypeError (field : string).

Inductive result (A : Type) : Type :=
| Ok (a : A)
| Raise (e : exn).
Arguments Ok {A}.
Arguments Raise {A}.

Definition bind {A B} (k : A -> result B) (r : result A) : result B :=
  match r with
  | Ok a => k a
  | Raise e => Raise e
  end.

#[global] Instance result_ret : MRet result := @Ok.
#[global] Instance result_bind : MBind result := @bind.

(** A list comprehension whose body may raise. *)
Fixpoint map_result {A B} (f : A -> result B) (l : list A) : result (list B) :=
  match l with
  | [] => Ok []
  | a :: l => b ← f a; bs ← map_result f l; Ok (b :: bs)
  end.

(** A [for] loop over [l] that threads the state [b] and may raise. *)
Fixpoint for_each {A B} (f : B -> A -> result B) (l : list A) (b : B) : result B :=
  match l with
  | [] => Ok b
  | a :: l => b' ← f b a; for_each f l b'
  end.

(** Modelled from the spec: [common.error], which [command.py] imports and
    whose module is not part of the sources.  The spec describes a call as
    fatal: the whole run aborts with the message; it is not an error a caller
    recovers from. *)
Definition error {A} (msg : string) : result A := Raise (SystemExit msg).

(** ** Dictionaries *)

Fixpoint dict_get (k : string) (d : dict) : option pyval :=
  match d with
  | [] => None
  | (k', v) :: d => if String.eqb k k' then Some v else dict_get k d
  end.

(** [d[k] = v]: an existing key keeps its position, a new key goes last. *)
Fixpoint dict_set (k : string) (v : pyval) (d : dict) : dict :=
  match d with
  | [] => [(k, v)]
  | (k', v') :: d => if String.eqb k k' then (k', v) :: d else (k', v') :: dict_set k v d
  end.

(** [d.update(other)] *)
Definition dict_update (d other : dict) : dict :=
  fold_left (fun acc kv => dict_set kv.1 kv.2 acc) other d.

Definition dict_has (k : string) (d : dict) : bool :=
  match dict_get k d with Some _ => true | None => false end.

(** ** Equality and truth of values *)

(** Python's [==] on these values: [bool] is a subtype of [int], sequences
    compare element by element, mappings by key, dataclass instances field
    by field. *)
Fixpoint py_eq (a b : pyval) {struct a} : bool :=
  match a, b with
  | PNone, PNone => true
  | PBool x, PBool y => Bool.eqb x y
  | PBool x, PInt y => Z.b2z x =? y
  | PInt x, PBool y => x =? Z.b2z y
  | PInt x, PInt y => x =? y
  | PStr x, PStr y => String.eqb x y
  | PList xs, PList ys =>
      (fix go (xs ys : list pyval) : bool :=
         match xs, ys with
         | [], [] => true
         | x :: xs, y :: ys => py_eq x y && go xs ys
         | _, _ => false
         end) xs ys
  | PDict xs, PDict ys =>
      Nat.eqb (length xs) (length ys) &&
      (fix go (xs : dict) : bool :=
         match xs with
         | [] => true
         | (k, v) :: xs =>
             match dict_get k ys with
             | Some w => py_eq v w
             | None => false
             end && go xs
         end) xs
  | PCommand (mkCommand c1 e1 t1 o1 x1 s1), PCommand (mkCommand c2 e2 t2 o2 x2 s2) =>
      py_eq c1 c2 && py_eq e1 e2 && py_eq t1 t2 &&
      py_eq o1 o2 && py_eq x1 x2 && py_eq s1 s2
  | _, _ => false
  end.

(** [bool(v)], as [not] uses it. *)
Definition py_truthy (v : pyval) : bool :=
  match v with
  | PNone => false
  | PBool b => b
  | PInt z => negb (z =? 0)
  | PStr s => negb (String.eqb s EmptyString)
  | PList l => match l with [] => false | _ => true end
  | PDict d => match d with [] => false | _ => true end
  | PCommand _ => true
  end.

(** ** Text: [re.finditer], [str.replace], [str.splitlines] *)

Definition code (c : ascii) : N := N_of_ascii c.

Definition in_range (lo hi : N) (c : ascii) : bool :=
  (lo <=? code c)%N && (code c <=? hi)%N.

(** The class [\s] of a [str] pattern, on code points below 256: the ASCII
    white space 9..13, 28..31 and 32, next line (133) and no-break space
    (160). *)
Definition is_space (c : ascii) : bool :=
  in_range 9 13 c || in_range 28 32 c || (code c =? 133)%N || (code c =? 160)%N.

(** The class [[\sa-zA-Z0-9_\-]] of [variable_group]. *)
Definition is_name_char (c : ascii) : bool :=
  is_space c || in_range 97 122 c || in_range 65 90 c || in_range 48 57 c
  || Ascii.eqb c "_" || Ascii.eqb c "-".

(** [s] without its prefix [p], when [p] is a prefix of [s]. *)
Fixpoint strip_prefix (p s : string) : option string :=
  match p with
  | EmptyString => Some s
  | String a p =>
      match s with
      | EmptyString => None
      | String b s => if Ascii.eqb a b then strip_prefix p s else None
      end
  end.

(** The longest prefix of characters satisfying [f], and what follows it. *)
Fixpoint span (f : ascii -> bool) (s : string) : string * string :=
  match s with
  | EmptyString => (EmptyString, EmptyString)
  | String c t =>
      if f c then let '(a, b) := span f t in (String c a, b)
      else (EmptyString, s)
  end.

(** A match object of [variable_group]: [match[0]] is the matched text and
    [match[1]] the text of the group. *)
Record Match : Type := mkMatch { group0 : string; group1 : string }.

Definition placeholder (name : string) : string := "${{" +:+ name +:+ "}}".

(** A match of [variable_group] at the start of [s], with the text after
    it: the three opening characters, any number of class characters as the
    group, and the two closing braces.  The star is greedy; as the class
    contains no closing brace, giving characters back can never produce a
    match, so the group is the longest run of class characters after the
    opening braces. *)
Definition match_at (s : string) : option (Match * string) :=
  match strip_prefix "${{" s with
  | Some t =>
      let '(name, r) := span is_name_char t in
      match strip_prefix "}}" r with
      | Some r' => Some (mkMatch (placeholder name) name, r')
      | None => None
      end
  | None => None
  end.

(** The scan of [re.finditer]: leftmost matches, each search resuming where
    the previous match ended.  A match is never empty, so the text left to
    scan shrinks at every step and [S (length s)] steps exhaust it. *)
Fixpoint finditer_from (fuel : nat) (s : string) : list Match :=
  match fuel with
  | O => []
  | S fuel =>
      match match_at s with
      | Some (m, rest) => m :: finditer_from fuel rest
      | None =>
          match s with
          | EmptyString => []
          | String _ t => finditer_from fuel t
          end
      end
  end.

Definition finditer (s : string) : list Match :=
  finditer_from (S (String.length s)) s.

(** [new] before every character of [s] and at its end: what [str.replace]
    does for an empty [old]. *)
Fixpoint insert_between (new s : string) : string :=
  match s with
  | EmptyString => new
  | String c t => new +:+ String c (insert_between new t)
  end.

Fixpoint replace_from (fuel : nat) (old new s : string) : string :=
  match fuel with
  | O => s
  | S fuel =>
      match s with
      | EmptyString => EmptyString
      | String c t =>
          match strip_prefix old s with
          | Some rest => new +:+ replace_from fuel old new rest
          | None => String c (replace_from fuel old new t)
          end
      end
  end.

(** [s.replace(old, new)]: every occurrence of [old], found from left to
    right without overlap, becomes [new]. *)
Definition replace (old new s : string) : string :=
  match old with
  | EmptyString => insert_between new s
  | String _ _ => replace_from (String.length s) old new s
  end.

(** The line boundaries of [str.splitlines] below 256: LF, VT, FF, CR, FS,
    GS, RS and NEL; CR LF counts once. *)
Definition is_linebreak (c : ascii) : bool :=
  in_range 10 13 c || in_range 28 30 c || (code c =? 133)%N.

Definition CR : ascii := ascii_of_nat 13.
Definition LF : ascii := ascii_of_nat 10.

(** [acc] is the line being read. A line that the end of the text closes is
    kept only when it is not empty. *)
Fixpoint splitlines_acc (acc s : string) : list string :=
  match s with
  | EmptyString => if String.eqb acc EmptyString then [] else [acc]
  | String c t =>
      if Ascii.eqb c CR then
        match t with
        | String c' t' =>
            if Ascii.eqb c' LF then acc :: splitlines_acc EmptyString t'
            else acc :: splitlines_acc EmptyString t
        | EmptyString => acc :: splitlines_acc EmptyString t
        end
      else if is_linebreak c then acc :: splitlines_acc EmptyString t
      else splitlines_acc (acc +:+ String c EmptyString) t
  end.

Definition splitlines (s : string) : list string := splitlines_acc EmptyString s.

(** ** Command *)

(** The defaults of the dataclass: the values of a field the constructor
    is not given. *)
Definition Command_default : Command :=
  mkCommand (PStr EmptyString) PNone (PInt (-1)) PNone PNone PNone.

(** [Command(command=com)] *)
Definition Command_of_text (com : string) : Command :=
  mkCommand (PStr com) PNone (PInt (-1)) PNone PNone PNone.

Inductive attr : Type :=
| a_command | a_expect | a_timeout | a_echo | a_check_exit_code | a_should_fail.

Definition attr_of_key (key : string) : option attr :=
  if String.eqb key "command" then Some a_command
  else if String.eqb key "expect" then Some a_expect
  else if String.eqb key "timeout" then Some a_timeout
  else if String.eqb key "echo" then Some a_echo
  else if String.eqb key "check_exit_code" then Some a_check_exit_code
  else if String.eqb key "should_fail" then Some a_should_fail
  else None.

Definition getattr (c : Command) (a : attr) : pyval :=
  match a with
  | a_command => command c
  | a_expect => expect c
  | a_timeout => timeout c
  | a_echo => echo c
  | a_check_exit_code => check_exit_code c
  | a_should_fail => should_fail c
  end.

Definition setattr (c : Command) (a : attr) (v : pyval) : Command :=
  match c with
  | mkCommand co ex ti ec ch sh =>
      match a with
      | a_command => mkCommand v ex ti ec ch sh
      | a_expect => mkCommand co v ti ec ch sh
      | a_timeout => mkCommand co ex v ec ch sh
      | a_echo => mkCommand co ex ti v ch sh
      | a_check_exit_code => mkCommand co ex ti ec v sh
      | a_should_fail => mkCommand co ex ti ec ch v
      end
  end.

(** [self[item]], for [item] the name of a field: the fields are instance
    attributes that [__init__] always sets, so [getattr] returns. *)
Definition getitem (c : Command) (item : attr) : pyval := getattr c item.

(** [self[key] = item], for [key] the name of a field. *)
Definition setitem (c : Command) (key : attr) (item : pyval) : Command :=
  setattr c key item.

(** [l[i]] *)
Definition index {A} (l : list A) (i : nat) : result A :=
  match l !! i with
  | Some a => Ok a
  | None => Raise IndexError
  end.

(** One turn of the loop of [_apply_task_properties].  The right-hand side
    of the assignment is evaluated first: [self[key]], [defaults[it]], then
    [task_values[it]] only when the two are equal. *)
Definition apply_task_property (defaults task_values : list pyval)
    (c : Command) (it_key : nat * attr) : result Command :=
  let '(it, key) := it_key in
  let own := getitem c key in
  d ← index defaults it;
  if py_eq own d
  then v ← index task_values it; Ok (setitem c key v)
  else Ok (setitem c key (getitem c key)).

(** [_apply_task_properties], for [keys] that name fields. *)
Definition _apply_task_properties (c : Command) (keys : list attr)
    (defaults task_values : list pyval) : result Command :=
  for_each (apply_task_property defaults task_values) (imap pair keys) c.

(** ** [dacite.from_dict]

    [dacite] is a third-party library; the model follows the behaviour of
    [from_dict] under its default configuration, the one [command.py] uses
    (no [Config] is passed): a key of the data that names no field of the
    dataclass is skipped ([strict] is off), a field absent from the data
    takes its default or raises [MissingValueError], and a value that is
    not an instance of the annotation of its field raises [WrongTypeError]
    ([check_types] is on).  [isinstance] holds of a [bool] at type [int]. *)

Definition conv (T : Type) : Type := string -> pyval -> result T.

Definition field {T} (cv : conv T) (data : dict) (name : string)
    (default : option T) : result T :=
  match dict_get name data with
  | Some v => cv name v
  | None =>
      match default with
      | Some d => Ok d
      | None => Raise (MissingValueError name)
      end
  end.

(** The annotations of the attributes of [Command]. *)
Inductive annot : Type := TStr | TOptStr | TOptInt | TOptBool.

Definition is_instance (t : annot) (v : pyval) : bool :=
  match t, v with
  | TStr, PStr _ => true
  | TOptStr, (PStr _ | PNone) => true
  | TOptInt, (PInt _ | PBool _ | PNone) => true
  | TOptBool, (PBool _ | PNone) => true
  | _, _ => false
  end.

Definition checked (t : annot) : conv pyval :=
  fun path v => if is_instance t v then Ok v else Raise (WrongTypeError path).

(** [dacite.from_dict(data_class=Command, data=data)] *)
Definition Command_from_dict (data : dict) : result Command :=
  co ← field (checked TStr) data "command" (Some (PStr EmptyString));
  ex ← field (checked TOptStr) data "expect" (Some PNone);
  ti ← field (checked TOptInt) data "timeout" (Some (PInt (-1)));
  ec ← field (checked TOptBool) data "echo" (Some PNone);
  ch ← field (checked TOptBool) data "check_exit_code" (Some PNone);
  sh ← field (checked TOptBool) data "should_fail" (Some PNone);
  Ok (mkCommand co ex ti ec ch sh).

(** The comprehension [{name_map[name]: value for name, value in
    dict.items()}]: [name_map] is the identity on the keys of [dict],
    overridden by the hyphenated spellings. *)
Definition rename_keys (name_map : string -> string) (d : dict) : dict :=
  fold_left (fun acc kv => dict_set (name_map kv.1) kv.2 acc) d [].

Definition Command_name_map (name : string) : string :=
  if String.eqb name "check-exit-code" then "check_exit_code"
  else if String.eqb name "should-fail" then "should_fail"
  else name.

(** [dict.get("command")] *)
Definition get_or_None (k : string) (d : dict) : pyval :=
  match dict_get k d with Some v => v | None => PNone end.

(** [Command.load_from_dict].  A value that is neither a [str] nor a
    mapping has no [get]. *)
Definition Command_load_from_dict (arg : pyval) : result Command :=
  match arg with
  | PStr s => Command_from_dict (rename_keys Command_name_map [("command", PStr s)])
  | PDict d =>
      let d := if negb (py_truthy (get_or_None "command" d))
               then dict_set "command" (PStr EmptyString) d else d in
      Command_from_dict (rename_keys Command_name_map d)
  | _ => Raise AttributeError
  end.

(** ** Variable resolution *)

(** The body of the loop of [Command.apply_vars] for one match. *)
Definition resolve_match (vars : gmap string string) (c : Command) (m : Match)
    : result Command :=
  match vars !! group1 m with
  | Some v =>
      match command c with
      | PStr text => Ok (setattr c a_command (PStr (replace (group0 m) v text)))
      | _ => Raise AttributeError
      end
  | None => error ("Variable " +:+ group1 m +:+ " not found!")
  end.

(** [Command.apply_vars].  The iterator of [re.finditer] is built once, on
    the text the command has when the loop starts; [re] accepts only text. *)
Definition Command_apply_vars (c : Command) (vars : gmap string string)
    : result Command :=
  match command c with
  | PStr text => for_each (resolve_match vars) (finditer text) c
  | _ => Raise TypeError
  end.

(** ** Task *)

(** The [Task] dataclass.  Tasks are built by [dacite] only, which checks
    the annotations, so the fields are typed.  The commands of a task are
    distinct objects: every constructor of the module builds a fresh
    [Command] for each entry. *)
Module Task.
Record t : Type := mk {
  name : string;
  shell : string;
  requires : list string;
  before : list string;
  echo : bool;
  timeout : option Z;
  fail_fast : bool;
  check_exit_code : bool;
  should_fail : bool;
  sleep : Z;
  disabled : bool;
  commands : list Command;
  vars : gmap string string
}.

Definition with_commands (task : t) (cs : list Command) : t :=
  mk (name task) (shell task) (requires task) (before task) (echo task)
     (timeout task) (fail_fast task) (check_exit_code task)
     (should_fail task) (sleep task) (disabled task) cs (vars task).
End Task.

(** [a | b] on dictionaries: the bindings of [b] win. *)
Definition dict_or (a b : gmap string string) : gmap string string := b ∪ a.

(** [Task.apply_vars] *)
Definition Task_apply_vars (task : Task.t)
    (default_vars override_variables : gmap string string) : result Task.t :=
  cs ← map_result
        (fun c => Command_apply_vars c
           (dict_or (dict_or default_vars (Task.vars task)) override_variables))
        (Task.commands task);
  Ok (Task.with_commands task cs).

(** The conversions of [dacite] at the annotations of [Task]. *)
Definition as_str : conv string :=
  fun path v => match v with PStr s => Ok s | _ => Raise (WrongTypeError path) end.

Definition as_bool : conv bool :=
  fun path v => match v with PBool b => Ok b | _ => Raise (WrongTypeError path) end.

Definition as_int : conv Z :=
  fun path v =>
    match v with
    | PInt z => Ok z
    | PBool b => Ok (Z.b2z b)
    | _ => Raise (WrongTypeError path)
    end.

Definition as_opt_int : conv (option Z) :=
  fun path v =>
    match v with
    | PNone => Ok None
    | _ => z ← as_int path v; Ok (Some z)
    end.

Definition as_str_list : conv (list string) :=
  fun path v =>
    match v with
    | PList l => map_result (as_str path) l
    | _ => Raise (WrongTypeError path)
    end.

Definition as_str_dict : conv (gmap string string) :=
  fun path v =>
    match v with
    | PDict d =>
        kvs ← map_result (fun kv => s ← as_str path kv.2; Ok (kv.1, s)) d;
        Ok (list_to_map kvs)
    | _ => Raise (WrongTypeError path)
    end.

(** An error raised while a nested dataclass is built carries the path of
    the outer field before its own. *)
Definition update_path {A} (parent : string) (r : result A) : result A :=
  match r with
  | Raise (MissingValueError p) => Raise (MissingValueError (parent +:+ "." +:+ p))
  | Raise (WrongTypeError p) => Raise (WrongTypeError (parent +:+ "." +:+ p))
  | _ => r
  end.

(** [list[Command]]: an item that is a mapping is built into a [Command],
    an instance of [Command] is taken as it is. *)
Definition as_commands : conv (list Command) :=
  fun path v =>
    match v with
    | PList l =>
        map_result
          (fun item =>
             match item with
             | PCommand c => Ok c
             | PDict d => update_path path (Command_from_dict d)
             | _ => Raise (WrongTypeError path)
             end) l
    | _ => Raise (WrongTypeError path)
    end.

(** [dacite.from_dict(data_class=Task, data=data)] *)
Definition Task_from_dict (data : dict) : result Task.t :=
  name ← field as_str data "name" None;
  shell ← field as_str data "shell" None;
  requires ← field as_str_list data "requires" (Some []);
  before ← field as_str_list data "before" (Some []);
  echo ← field as_bool data "echo" (Some false);
  timeout ← field as_opt_int data "timeout" (Some None);
  fail_fast ← field as_bool data "fail_fast" (Some true);
  check_exit_code ← field as_bool data "check_exit_code" (Some true);
  should_fail ← field as_bool data "should_fail" (Some false);
  sleep ← field as_int data "sleep" (Some 0);
  disabled ← field as_bool data "disabled" (Some false);
  commands ← field as_commands data "commands" (Some []);
  vars ← field as_str_dict data "vars" (Some ∅);
  Ok (Task.mk name shell requires before echo timeout fail_fast
        check_exit_code should_fail sleep disabled commands vars).

Definition Task_name_map (name : string) : string :=
  if String.eqb name "fail-fast" then "fail_fast"
  else if String.eqb name "check-exit-code" then "check_exit_code"
  else if String.eqb name "should-fail" then "should_fail"
  else name.

(** [Task.load_from_dict] *)
Definition Task_load_from_dict (d : dict) : result Task.t :=
  Task_from_dict (rename_keys Task_name_map d).

(** [for com in v]: a list yields its items, a [str] its characters, a
    mapping its keys; the other values are not iterable. *)
Definition py_iter (v : pyval) : result (list pyval) :=
  match v with
  | PList l => Ok l
  | PStr s => Ok ((fun c => PStr (String c EmptyString)) <$> String.list_ascii_of_string s)
  | PDict d => Ok ((fun kv => PStr kv.1) <$> d)
  | _ => Raise TypeError
  end.

Section Yaml.
(** [yaml.safe_load], a third-party parser: the value a text denotes, or
    [None] where the parser raises [YAMLError]. *)
Variable safe_load : string -> option pyval.

(** [Task.load_from_yaml] *)
Definition Task_load_from_yaml (yaml_string : string) (overrides : dict)
    : result Task.t :=
  match safe_load yaml_string with
  | None => Raise YAMLError
  | Some (PDict obj) =>
      let obj := dict_update obj overrides in
      _ ← (if dict_has "name" obj then Ok ()
           else error "Task description file must at least contain a 'name' field");
      coms ← py_iter (default (PList []) (dict_get "commands" obj));
      cs ← map_result Command_load_from_dict coms;
      Task_load_from_dict (dict_set "commands" (PList (PCommand <$> cs)) obj)
  | Some _ => Raise YAMLError
  end.
End Yaml.

(** [Task.from_multiline_string] *)
Definition Task_from_multiline_string (name str : string) (params : dict)
    : result Task.t :=
  let params := dict_set "name" (PStr name) params in
  let params :=
    dict_set "commands" (PList (PCommand <$> (Command_of_text <$> splitlines str)))
      params in
  Task_load_from_dict params.

(** ** The rest of the module and the entry script *)

(** [Task.enable] *)
Definition Task_enable (task : Task.t) (value : bool) : Task.t :=
  Task.mk (Task.name task) (Task.shell task) (Task.requires task)
    (Task.before task) (Task.echo task) (Task.timeout task)
    (Task.fail_fast task) (Task.check_exit_code task) (Task.should_fail task)
    (Task.sleep task) (negb value) (Task.commands task) (Task.vars task).

(** [default_boards] of [run-in-renode.py] *)
Definition default_boards : gmap string string :=
  {[ "riscv64" := "hifive_unleashed" ]}.

(** A call [get_file(source, target)]. *)
Record get_file_call : Type := mkGetFile { source : string; target : string }.

Section Board.

(** [get_file] belongs to the module [common], which is not part of the
    sources, and it acts on the file system: it is a parameter, any
    function that, from the state [World] it finds, returns with a new
    state or raises. *)
Context {World : Type}.
Variable get_file : string -> string -> World -> result World.

(** One call of [get_file]: the state it leaves and the call, appended to
    the calls made before. *)
Definition fetch (source target : string) (st : World * list get_file_call)
    : result (World * list get_file_call) :=
  w ← get_file source target st.1;
  Ok (w, st.2 ++ [mkGetFile source target]).

(** [configure_board]: the pair it returns, with the calls of [get_file]
    it made, in order, and the state they leave. *)
Definition configure_board (arch board resc repl : string) (w : World)
    : result (string * string * list get_file_call * World) :=
  _ ← (if decide (is_Some (default_boards !! arch)) then Ok ()
       else error "Architecture not supportted!");
  board ← Ok (if String.eqb board "default"
              then default EmptyString (default_boards !! arch) else board);
  _ ← (if String.eqb board "custom"
          && (String.eqb resc "default" || String.eqb repl "default")
       then error "You have to provide resc and repl for custom board"
       else Ok ());
  st ← (if negb (String.eqb resc "default")
        then fetch resc ("action/device/" +:+ board +:+ "/init.resc") (w, [])
        else Ok (w, []));
  st ← (if negb (String.eqb repl "default")
        then fetch repl ("action/device/" +:+ board +:+ "/platform.repl") st
        else Ok st);
  Ok (arch, board, st.2, st.1).

End Board.

(** * Vocabulary of the properties *)

(** Every character of [s] satisfies [f]. *)
Fixpoint all_chars (f : ascii -> bool) (s : string) : bool :=
  match s with
  | EmptyString => true
  | String c t => f c && all_chars f t
  end.

(** [name] can stand between the braces of a placeholder. *)
Definition name_ok (name : string) : bool := all_chars is_name_char name.

Definition is_not (c : ascii) (a : ascii) : bool := negb (Ascii.eqb a c).

(** No character of [s] ends a line. *)
Definition no_break (s : string) : bool :=
  all_chars (fun c => negb (is_linebreak c)) s.

Definition non_empty (line : string) : bool := negb (String.eqb line EmptyString).

(** [p] occurs in [s]. *)
Fixpoint occurs (p s : string) : bool :=
  match strip_prefix p s with
  | Some _ => true
  | None =>
      match s with
      | EmptyString => false
      | String _ t => occurs p t
      end
  end.

(** What [Command.apply_vars] raises for a name the scope lacks. *)
Definition not_found (name : string) : exn :=
  SystemExit ("Variable " +:+ name +:+ " not found!").

(** The scope the spec describes: the per-run overrides first, then the
    variables of the task, then the global defaults. *)
Definition layered_lookup (default_vars task_vars overrides : gmap string string)
    (k : string) : option string :=
  match overrides !! k with
  | Some v => Some v
  | None =>
      match task_vars !! k with
      | Some v => Some v
      | None => default_vars !! k
      end
  end.

(** The policy attributes, in the order [_apply_task_properties] is given
    them. *)
Definition policy_keys : list attr :=
  [a_echo; a_timeout; a_check_exit_code; a_should_fail].

(** The unset markers: the values the dataclass gives the policy
    attributes of a [Command] that does not set them, [None] and, for
    [timeout], [-1]. *)
Definition unset_markers : list pyval := getattr Command_default <$> policy_keys.

(** [effective] is the value of an attribute that inherits [task_value]
    when [own] is the [marker] and keeps [own] otherwise. *)
Definition inherits (own marker task_value effective : pyval) : Prop :=
  (own = marker -> effective = task_value) /\
  (own <> marker -> effective = own).

Definition pick (own d v : pyval) : pyval := if py_eq own d then v else own.

(** The keys of an association list that stands for a [dict] are pairwise
    distinct. *)
Fixpoint distinct_keys (d : dict) : bool :=
  match d with
  | [] => true
  | (k, _) :: d => negb (dict_has k d) && distinct_keys d
  end.

(** One step of the lookup of [k] among renamed keys: the last entry whose
    key [f] sends to [k] is the binding of [k]. *)
Definition renamed_step (f : string -> string) (k : string)
    (o : option pyval) (kv : string * pyval) : option pyval :=
  if String.eqb k (f kv.1) then Some kv.2 else o.

Definition Command_fields : list string :=
  ["command"; "expect"; "timeout"; "echo"; "check_exit_code"; "should_fail"].

Definition Task_fields : list string :=
  ["name"; "shell"; "requires"; "before"; "echo"; "timeout"; "fail_fast";
   "check_exit_code"; "should_fail"; "sleep"; "disabled"; "commands"; "vars"].

Definition is_field (fields : list string) (k : string) : bool :=
  existsb (String.eqb k) fields.

(** A key is known when its normalised spelling names a field. *)
Definition known_Command_key (k : string) : bool :=
  is_field Command_fields (Command_name_map k).

Definition known_Task_key (k : string) : bool :=
  is_field Task_fields (Task_name_map k).

Definition without_unknown (known : string -> bool) (d : dict) : dict :=
  List.filter (fun kv => known kv.1) d.

Definition Command_annotations : list (string * annot) :=
  [("command", TStr); ("expect", TOptStr); ("timeout", TOptInt);
   ("echo", TOptBool); ("check_exit_code", TOptBool); ("should_fail", TOptBool)].

(** The entries of a mapping other than [command] hold values of the
    types of the attributes they name. *)
Definition well_typed_rest (d : dict) : Prop :=
  forall k v t,
    (k, v) ∈ d -> k <> "command" ->
    (Command_name_map k, t) ∈ Command_annotations -> is_instance t v = true.

(** ** Vocabulary of the further properties *)

#[global] Instance attr_eq_dec : EqDecision attr.
Proof. solve_decision. Defined.

(** The keys of a record in their normalised spelling. *)
Definition normalise_keys (name_map : string -> string) (d : dict) : dict :=
  (fun kv => (name_map kv.1, kv.2)) <$> d.

(** The entries of a record that [name_map] sends to the key [k]. *)
Definition spelled (name_map : string -> string) (k : string) (d : dict) : dict :=
  List.filter (fun kv => String.eqb k (name_map kv.1)) d.

(** The attributes of a command hold values of their annotations. *)
Definition well_typed_Command (c : Command) : Prop :=
  is_instance TStr (command c) = true /\
  is_instance TOptStr (expect c) = true /\
  is_instance TOptInt (timeout c) = true /\
  is_instance TOptBool (echo c) = true /\
  is_instance TOptBool (check_exit_code c) = true /\
  is_instance TOptBool (should_fail c) = true.

(** Every placeholder of [text] has its name bound in [vars]. *)
Definition placeholders_bound (vars : gmap string string) (text : string) : Prop :=
  forall pre name post,
    text = pre +:+ placeholder name +:+ post -> name_ok name = true ->
    is_Some (vars !! name).

(** The policy attributes of two commands are the same. *)
Definition same_policy (c c' : Command) : Prop :=
  expect c' = expect c /\ timeout c' = timeout c /\ echo c' = echo c /\
  check_exit_code c' = check_exit_code c /\ should_fail c' = should_fail c.

(** The board [configure_board] works with: the default board of the one
    supported architecture for [default]. *)
Definition resolved_board (board : string) : string :=
  if String.eqb board "default" then "hifive_unleashed" else board.

(** The files to fetch for [board]: [resc] and [repl], unless [default]. *)
Definition fetches (board resc repl : string) : list get_file_call :=
  (if String.eqb resc "default" then []
   else [mkGetFile resc ("action/device/" +:+ board +:+ "/init.resc")]) ++
  (if String.eqb repl "default" then []
   else [mkGetFile repl ("action/device/" +:+ board +:+ "/platform.repl")]).

(** The calls [calls] made one after the other from the state [w]. *)
Definition run_fetches {World : Type}
    (get_file : string -> string -> World -> result World)
    (calls : list get_file_call) (w : World) : result World :=
  for_each (fun w call => get_file (source call) (target call) w) calls w.

(** * Properties *)

(** ** Text *)

Section text_lemmas.
Implicit Types (s t p r : string) (c : ascii).

Lemma app_cons c s t : String c s +:+ t = String c (s +:+ t).
Proof. reflexivity. Qed.

Lemma app_nil_r s : s +:+ EmptyString = s.
Proof. induction s as [|c s IH]; [done|]. by rewrite app_cons, IH. Qed.

Lemma app_assoc s t r : (s +:+ t) +:+ r = s +:+ t +:+ r.
Proof. induction s as [|c s IH]; [done|]. by rewrite !app_cons, IH. Qed.

Lemma length_app s t :
  String.length (s +:+ t) = (String.length s + String.length t)%nat.
Proof. induction s as [|c s IH]; [done|]. rewrite app_cons. simpl. by rewrite IH. Qed.

Lemma strip_prefix_Some p s r : strip_prefix p s = Some r <-> s = p +:+ r.
Proof.
  revert s. induction p as [|a p IH]; intros s; simpl.
  - split; [by intros [= ->] | by intros ->].
  - destruct s as [|b s]; [done|].
    rewrite app_cons. destruct (Ascii.eqb_spec a b) as [->|Hne].
    + rewrite IH. split; [by intros -> | by intros [= ->]].
    + split; [done | by intros [= ? ?]].
Qed.

Lemma strip_prefix_app p r : strip_prefix p (p +:+ r) = Some r.
Proof. by apply strip_prefix_Some. Qed.

Lemma strip_prefix_length p s r :
  strip_prefix p s = Some r ->
  String.length s = (String.length p + String.length r)%nat.
Proof. intros ->%strip_prefix_Some. apply length_app. Qed.

Lemma span_app_eq f s a b : span f s = (a, b) -> s = a +:+ b.
Proof.
  revert a b. induction s as [|c s IH]; intros a b; simpl.
  - by intros [= <- <-].
  - destruct (f c); [|by intros [= <- <-]].
    destruct (span f s) as [a' b']. intros [= <- <-].
    rewrite app_cons. f_equal. by apply IH.
Qed.

Lemma span_all f s a b : span f s = (a, b) -> all_chars f a = true.
Proof.
  revert a b. induction s as [|c s IH]; intros a b; simpl.
  - by intros [= <- <-].
  - destruct (f c) eqn:Hc; [|by intros [= <- <-]].
    destruct (span f s) as [a' b']. intros [= <- <-].
    simpl. rewrite Hc. simpl. by eapply IH.
Qed.

Lemma span_stop f a c r :
  all_chars f a = true -> f c = false ->
  span f (a +:+ String c r) = (a, String c r).
Proof.
  intros Ha Hc. induction a as [|x a IH]; simpl in *.
  - by rewrite Hc.
  - apply andb_true_iff in Ha as [Hx Ha]. by rewrite Hx, IH.
Qed.
End text_lemmas.

(** ** The scan for placeholders *)

Section scan.
Implicit Types (s t r name pre post : string) (m : Match).

Lemma placeholder_app name r :
  placeholder name +:+ r = "${{" +:+ name +:+ "}}" +:+ r.
Proof. unfold placeholder. by rewrite !app_assoc. Qed.

(** [match_at] succeeds exactly on the texts that start with a
    placeholder, and returns that placeholder: the pattern has one match
    at most at a position. *)
Lemma match_at_Some s m r :
  match_at s = Some (m, r) ->
  exists name,
    m = mkMatch (placeholder name) name /\ name_ok name = true /\
    s = placeholder name +:+ r.
Proof.
  unfold match_at. intros H.
  destruct (strip_prefix "${{" s) as [t|] eqn:Ht; [|done].
  destruct (span is_name_char t) as [name r0] eqn:Hsp.
  destruct (strip_prefix "}}" r0) as [r'|] eqn:Hr; [|done].
  injection H as <- <-. exists name.
  apply strip_prefix_Some in Ht, Hr. split; [done|]. split.
  - by eapply span_all.
  - apply span_app_eq in Hsp. rewrite placeholder_app. by subst.
Qed.

Lemma match_at_placeholder name r :
  name_ok name = true ->
  match_at (placeholder name +:+ r) = Some (mkMatch (placeholder name) name, r).
Proof.
  intros Hn. unfold match_at. rewrite placeholder_app, strip_prefix_app.
  change ("}}" +:+ r) with (String "}" ("}" +:+ r)).
  rewrite (span_stop _ _ _ _ Hn) by done.
  change (String "}" ("}" +:+ r)) with ("}}" +:+ r).
  by rewrite strip_prefix_app.
Qed.

(** The two together: [match_at] is the pattern read as a specification. *)
Lemma match_at_iff s m r :
  match_at s = Some (m, r) <->
  exists name,
    m = mkMatch (placeholder name) name /\ name_ok name = true /\
    s = placeholder name +:+ r.
Proof.
  split; [apply match_at_Some|].
  intros (name & -> & Hn & ->). by apply match_at_placeholder.
Qed.

Lemma match_at_shorter s m r :
  match_at s = Some (m, r) -> (String.length r < String.length s)%nat.
Proof.
  intros (name & _ & _ & ->)%match_at_Some.
  rewrite placeholder_app, !length_app. simpl. lia.
Qed.

Lemma finditer_from_enough n n' s :
  (String.length s < n)%nat -> (String.length s < n')%nat ->
  finditer_from n s = finditer_from n' s.
Proof.
  revert n' s. induction n as [|n IH]; intros [|n'] s Hn Hn'; try lia.
  simpl. destruct (match_at s) as [[m r]|] eqn:Hm.
  - pose proof (match_at_shorter _ _ _ Hm). f_equal. apply IH; lia.
  - destruct s as [|c s]; [done|]. simpl in Hn, Hn'. apply IH; lia.
Qed.

Lemma finditer_from_S n s :
  finditer_from (S n) s =
  match match_at s with
  | Some (m, rest) => m :: finditer_from n rest
  | None => match s with
            | EmptyString => []
            | String _ t => finditer_from n t
            end
  end.
Proof. reflexivity. Qed.

Lemma finditer_nil : finditer EmptyString = [].
Proof. reflexivity. Qed.

Lemma finditer_match s m r :
  match_at s = Some (m, r) -> finditer s = m :: finditer r.
Proof.
  intros Hm. unfold finditer at 1. rewrite finditer_from_S, Hm. f_equal.
  pose proof (match_at_shorter _ _ _ Hm). apply finditer_from_enough; lia.
Qed.

Lemma finditer_skip c s :
  match_at (String c s) = None -> finditer (String c s) = finditer s.
Proof.
  intros Hm. unfold finditer at 1. rewrite finditer_from_S, Hm.
  apply finditer_from_enough; simpl; lia.
Qed.
End scan.

Section occurrences.
Implicit Types (s t r w name pre post : string) (m : Match) (c : ascii).

Lemma all_chars_app f s t :
  all_chars f (s +:+ t) = all_chars f s && all_chars f t.
Proof.
  induction s as [|c s IH]; [done|]. rewrite app_cons. simpl.
  by rewrite IH, andb_assoc.
Qed.

Lemma all_chars_impl (f g : ascii -> bool) s :
  (forall c, f c = true -> g c = true) ->
  all_chars f s = true -> all_chars g s = true.
Proof.
  intros Hfg. induction s as [|c s IH]; [done|]. simpl.
  intros [Hc Hs]%andb_true_iff. by rewrite (Hfg c Hc), IH.
Qed.

(** A text [w] free of [c] that starts [p ++ c :: x] ends inside [p]. *)
Lemma app_eq_free w r p c x :
  all_chars (is_not c) w = true ->
  w +:+ r = p +:+ String c x ->
  exists p', p = w +:+ p' /\ r = p' +:+ String c x.
Proof.
  revert p. induction w as [|a w IH]; intros p Hw Heq.
  - by exists p.
  - simpl in Hw. apply andb_true_iff in Hw as [Ha Hw].
    destruct p as [|b p].
    + injection Heq as -> _. unfold is_not in Ha.
      by rewrite Ascii.eqb_refl in Ha.
    + rewrite !app_cons in Heq. injection Heq as -> Heq.
      destruct (IH p Hw Heq) as (p' & -> & ->). by exists p'.
Qed.

Lemma name_char_not_dollar c : is_name_char c = true -> is_not "$" c = true.
Proof.
  intros Hc. unfold is_not. destruct (Ascii.eqb_spec c "$") as [->|]; [|done].
  by vm_compute in Hc.
Qed.

Lemma placeholder_cons name :
  placeholder name = String "$" ("{{" +:+ name +:+ "}}").
Proof. reflexivity. Qed.

Lemma placeholder_inj name name' r r' :
  name_ok name = true -> name_ok name' = true ->
  placeholder name +:+ r = placeholder name' +:+ r' ->
  name = name' /\ r = r'.
Proof.
  intros Hn Hn' Heq.
  pose proof (match_at_placeholder name r Hn) as H1.
  rewrite Heq, (match_at_placeholder name' r' Hn') in H1.
  by injection H1 as _ -> ->.
Qed.

(** After a placeholder that starts a text, a later placeholder of the
    text lies wholly in what follows: the characters of a placeholder
    past its first are not the dollar sign. *)
Lemma placeholder_overlap name' r c pre name post :
  name_ok name' = true ->
  placeholder name' +:+ r = String c pre +:+ placeholder name +:+ post ->
  exists pre', r = pre' +:+ placeholder name +:+ post.
Proof.
  intros Hn' Heq.
  change (placeholder name' +:+ r)
    with (String "$" (("{{" +:+ name' +:+ "}}") +:+ r)) in Heq.
  change (String c pre +:+ placeholder name +:+ post)
    with (String c (pre +:+ String "$" (("{{" +:+ name +:+ "}}") +:+ post))) in Heq.
  injection Heq as _ Heq.
  apply app_eq_free in Heq as (p' & _ & ->).
  - by exists p'.
  - rewrite !all_chars_app. rewrite (all_chars_impl _ _ _ name_char_not_dollar Hn').
    done.
Qed.

(** Induction along the scan. *)
Lemma finditer_ind (P : string -> list Match -> Prop) :
  P EmptyString [] ->
  (forall s m r, match_at s = Some (m, r) ->
     P r (finditer r) -> P s (m :: finditer r)) ->
  (forall c s, match_at (String c s) = None ->
     P s (finditer s) -> P (String c s) (finditer s)) ->
  forall s, P s (finditer s).
Proof.
  intros Hnil Hmatch Hskip s.
  remember (String.length s) as n eqn:Hn. revert s Hn.
  induction n as [n IH] using lt_wf_ind. intros s ->.
  destruct (match_at s) as [[m r]|] eqn:Hm.
  - rewrite (finditer_match _ _ _ Hm). apply Hmatch; [done|].
    eapply IH; [|done]. by eapply match_at_shorter.
  - destruct s as [|c s]; [apply Hnil|].
    rewrite (finditer_skip _ _ Hm). apply Hskip; [done|].
    eapply IH; [|done]. simpl. lia.
Qed.

(** Every match of the scan is a placeholder of the text. *)
Lemma finditer_sound s m :
  m ∈ finditer s ->
  exists pre name post,
    s = pre +:+ placeholder name +:+ post /\
    m = mkMatch (placeholder name) name /\ name_ok name = true.
Proof.
  revert m. pattern s, (finditer s). apply finditer_ind; clear s.
  - intros m Hm. by apply elem_of_nil in Hm.
  - intros s m r Hm IH m' [->|Hin]%elem_of_cons.
    + apply match_at_Some in Hm as (name & -> & Hn & ->).
      by exists EmptyString, name, r.
    + destruct (IH _ Hin) as (pre & name & post & -> & -> & Hn).
      apply match_at_Some in Hm as (name' & _ & _ & ->).
      exists (placeholder name' +:+ pre), name, post.
      by rewrite app_assoc.
  - intros c s _ IH m Hin.
    destruct (IH _ Hin) as (pre & name & post & -> & -> & Hn).
    by exists (String c pre), name, post.
Qed.

(** Every placeholder of the text is a match of the scan. *)
Lemma finditer_complete pre name post :
  name_ok name = true ->
  mkMatch (placeholder name) name ∈ finditer (pre +:+ placeholder name +:+ post).
Proof.
  intros Hn. remember (pre +:+ placeholder name +:+ post) as s eqn:Hs.
  revert pre Hs. pattern s, (finditer s). apply finditer_ind; clear s.
  - intros pre Hs. apply (f_equal String.length) in Hs.
    rewrite placeholder_cons, !length_app in Hs. simpl in Hs. lia.
  - intros s m r Hm IH pre Hs.
    destruct pre as [|c pre].
    + change (EmptyString +:+ ?x) with x in Hs. subst s.
      rewrite (match_at_placeholder _ _ Hn) in Hm. injection Hm as <- _.
      apply list_elem_of_here.
    + apply match_at_Some in Hm as (name' & _ & Hn' & ->).
      apply placeholder_overlap in Hs as [pre' ->]; [|done].
      apply list_elem_of_further. by eapply IH.
  - intros c s Hm IH pre Hs.
    destruct pre as [|c' pre].
    + change (EmptyString +:+ ?x) with x in Hs. rewrite Hs in Hm.
      by rewrite (match_at_placeholder _ _ Hn) in Hm.
    + rewrite app_cons in Hs. injection Hs as -> ->. by eapply IH.
Qed.
End occurrences.

Section replacement.
Implicit Types (s t r old new name pre post v : string) (m : Match) (a c : ascii).

Lemma replace_from_S n old new s :
  replace_from (S n) old new s =
  match s with
  | EmptyString => EmptyString
  | String c t =>
      match strip_prefix old s with
      | Some rest => new +:+ replace_from n old new rest
      | None => String c (replace_from n old new t)
      end
  end.
Proof. reflexivity. Qed.

Lemma replace_from_enough a old new n n' s :
  (String.length s <= n)%nat -> (String.length s <= n')%nat ->
  replace_from n (String a old) new s = replace_from n' (String a old) new s.
Proof.
  revert n' s. induction n as [|n IH]; intros n' s Hn Hn'.
  - destruct s; [|simpl in Hn; lia]. by destruct n'.
  - destruct n' as [|n'].
    { destruct s; [done|simpl in Hn'; lia]. }
    rewrite !replace_from_S. destruct s as [|c t]; [done|].
    destruct (strip_prefix (String a old) (String c t)) as [r|] eqn:Hr.
    + apply strip_prefix_length in Hr. simpl in Hr, Hn, Hn'.
      f_equal. apply IH; lia.
    + simpl in Hn, Hn'. f_equal. apply IH; lia.
Qed.

Lemma replace_nil a old new : replace (String a old) new EmptyString = EmptyString.
Proof. reflexivity. Qed.

Lemma replace_hit a old new s r :
  strip_prefix (String a old) s = Some r ->
  replace (String a old) new s = new +:+ replace (String a old) new r.
Proof.
  intros Hr. unfold replace. pose proof (strip_prefix_length _ _ _ Hr) as Hl.
  destruct s as [|c t]; [done|]. simpl String.length in *.
  rewrite replace_from_S, Hr. f_equal.
  apply replace_from_enough; lia.
Qed.

Lemma replace_miss a old new c t :
  strip_prefix (String a old) (String c t) = None ->
  replace (String a old) new (String c t) =
  String c (replace (String a old) new t).
Proof.
  intros Hr. unfold replace. simpl String.length.
  by rewrite replace_from_S, Hr.
Qed.

Lemma replace_placeholder_hit name new r :
  replace (placeholder name) new (placeholder name +:+ r) =
  new +:+ replace (placeholder name) new r.
Proof.
  apply (replace_hit "$" ("{{" +:+ name +:+ "}}")).
  apply (strip_prefix_app (placeholder name)).
Qed.

Lemma replace_placeholder_miss name new c t :
  strip_prefix (placeholder name) (String c t) = None ->
  replace (placeholder name) new (String c t) =
  String c (replace (placeholder name) new t).
Proof. apply (replace_miss "$" ("{{" +:+ name +:+ "}}")). Qed.

(** Where the scan finds no placeholder there is none to replace, and
    where it finds one, that occurrence is the only one replaced. *)
Lemma replace_scanned name v s :
  name_ok name = true ->
  (finditer s = [] -> replace (placeholder name) v s = s) /\
  (finditer s = [mkMatch (placeholder name) name] ->
   exists pre post,
     s = pre +:+ placeholder name +:+ post /\
     replace (placeholder name) v s = pre +:+ v +:+ post).
Proof.
  intros Hn. pattern s, (finditer s). apply finditer_ind; clear s.
  - split; [done|]. by intros [=].
  - intros s m r Hm [IH _]. split; [by intros [=]|].
    intros [= -> Hr]. apply match_at_Some in Hm as (name' & [= _ <-] & _ & ->).
    exists EmptyString, r. split; [done|].
    by rewrite replace_placeholder_hit, IH.
  - intros c s Hm [IH1 IH2].
    assert (strip_prefix (placeholder name) (String c s) = None) as Hnone.
    { destruct (strip_prefix _ _) as [r|] eqn:Hr; [|done].
      apply strip_prefix_Some in Hr. rewrite Hr in Hm.
      by rewrite (match_at_placeholder _ _ Hn) in Hm. }
    rewrite (replace_placeholder_miss _ _ _ _ Hnone).
    split.
    + intros H. by rewrite IH1.
    + intros H. destruct (IH2 H) as (pre & post & -> & ->).
      by exists (String c pre), post.
Qed.
End replacement.

(** ** Variable resolution *)

Section resolution.
Implicit Types (c : Command) (vars : gmap string string) (m : Match).

Lemma resolve_match_text vars c m text :
  command c = PStr text ->
  resolve_match vars c m =
  match vars !! group1 m with
  | Some v => Ok (setattr c a_command (PStr (replace (group0 m) v text)))
  | None => Raise (not_found (group1 m))
  end.
Proof. intros Hc. unfold resolve_match. rewrite Hc. by destruct (vars !! _). Qed.

Lemma setattr_command c v : command (setattr c a_command v) = v.
Proof. by destruct c. Qed.

(** The loop stops at the first match whose name the scope lacks. *)
Lemma for_each_unbound vars ms c text m :
  command c = PStr text ->
  m ∈ ms -> vars !! group1 m = None ->
  exists m', m' ∈ ms /\ vars !! group1 m' = None /\
    for_each (resolve_match vars) ms c = Raise (not_found (group1 m')).
Proof.
  revert c text. induction ms as [|m0 ms IH]; intros c text Hc Hin Hm.
  - by apply elem_of_nil in Hin.
  - simpl. rewrite (resolve_match_text _ _ _ _ Hc).
    destruct (vars !! group1 m0) as [v|] eqn:Hv.
    + apply elem_of_cons in Hin as [->|Hin]; [congruence|].
      destruct (IH (setattr c a_command (PStr (replace (group0 m0) v text)))
                  _ (setattr_command _ _) Hin Hm) as (m' & Hin' & Hm' & Heq).
      exists m'. split; [by apply list_elem_of_further|]. done.
    + exists m0. split; [apply list_elem_of_here|]. done.
Qed.

(** The loop assigns to [command] alone, and always text. *)
Lemma for_each_frame vars ms c c' text :
  command c = PStr text ->
  for_each (resolve_match vars) ms c = Ok c' ->
  (exists text', command c' = PStr text') /\
  expect c' = expect c /\ timeout c' = timeout c /\ echo c' = echo c /\
  check_exit_code c' = check_exit_code c /\ should_fail c' = should_fail c.
Proof.
  revert c text. induction ms as [|m ms IH]; intros c text Hc; simpl.
  - intros [= <-]. eauto 10.
  - rewrite (resolve_match_text _ _ _ _ Hc).
    destruct (vars !! group1 m) as [v|]; [|done]. simpl.
    intros H. apply (IH _ _ (setattr_command _ _)) in H.
    by destruct c.
Qed.
End resolution.

Lemma apply_vars_unbound (c : Command) (vars : gmap string string)
    (pre name post : string) :
  command c = PStr (pre +:+ placeholder name +:+ post) ->
  name_ok name = true ->
  vars !! name = None ->
  exists missing pre' post',
    pre +:+ placeholder name +:+ post = pre' +:+ placeholder missing +:+ post' /\
    vars !! missing = None /\
    Command_apply_vars c vars = Raise (not_found missing).
Proof.
  intros Hc Hn Hv. unfold Command_apply_vars. rewrite Hc.
  pose proof (finditer_complete pre name post Hn) as Hin.
  destruct (for_each_unbound vars _ c _ _ Hc Hin Hv) as (m' & Hin' & Hv' & Heq).
  apply finditer_sound in Hin' as (pre' & missing & post' & Htext & -> & _).
  by exists missing, pre', post'.
Qed.

(** C1: a command whose text contains a placeholder whose name the scope
    lacks is not resolved: [Command.apply_vars] ends in the fatal error,
    with a message that names a placeholder of the text that the scope
    lacks, the first one the scan meets. No command is returned, so the
    placeholder is neither left in place nor dropped. *)
Theorem unresolved_placeholder_aborts (c : Command) (vars : gmap string string)
    (pre name post : string) :
  command c = PStr (pre +:+ placeholder name +:+ post) ->
  name_ok name = true ->
  vars !! name = None ->
  exists missing pre' post',
    pre +:+ placeholder name +:+ post = pre' +:+ placeholder missing +:+ post' /\
    vars !! missing = None /\
    Command_apply_vars c vars =
      Raise (SystemExit ("Variable " +:+ missing +:+ " not found!")).
Proof. apply apply_vars_unbound. Qed.

Lemma unresolved_placeholder_aborts_witness :
  exists missing pre' post',
    "echo " +:+ placeholder "X" +:+ EmptyString = pre' +:+ placeholder missing +:+ post' /\
    (∅ : gmap string string) !! missing = None /\
    Command_apply_vars (Command_of_text "echo ${{X}}") ∅ =
      Raise (SystemExit ("Variable " +:+ missing +:+ " not found!")).
Proof.
  apply (unresolved_placeholder_aborts (Command_of_text "echo ${{X}}") ∅ "echo " "X" EmptyString);
    reflexivity.
Defined.

(** The same at the level of a task: one command with an unresolved
    placeholder makes [Task.apply_vars] raise. *)
Lemma map_result_raises {A B} (f : A -> result B) (l : list A) (a : A) (e : exn) :
  a ∈ l -> f a = Raise e -> exists e', map_result f l = Raise e'.
Proof.
  intros Hin Ha. induction l as [|b l IH]; [by apply elem_of_nil in Hin|].
  simpl. apply elem_of_cons in Hin as [<-|Hin].
  - rewrite Ha. by exists e.
  - destruct (f b); [|by eexists]. simpl.
    destruct (IH Hin) as [e' ->]. by exists e'.
Qed.

Lemma Task_apply_vars_aborts (task : Task.t) (default_vars overrides : gmap string string)
    (c : Command) (pre name post : string) :
  c ∈ Task.commands task ->
  command c = PStr (pre +:+ placeholder name +:+ post) ->
  name_ok name = true ->
  dict_or (dict_or default_vars (Task.vars task)) overrides !! name = None ->
  exists e, Task_apply_vars task default_vars overrides = Raise e.
Proof.
  intros Hin Hc Hn Hv.
  destruct (apply_vars_unbound c _ pre name post Hc Hn Hv)
    as (missing & _ & _ & _ & _ & Heq).
  unfold Task_apply_vars.
  destruct (map_result_raises
              (fun c => Command_apply_vars c
                 (dict_or (dict_or default_vars (Task.vars task)) overrides))
              _ _ _ Hin Heq) as [e' ->].
  by exists e'.
Qed.

(** C6: the name looked up is the text of the group as the pattern matched
    it, white space included: with [X] in scope, the placeholder written
    with spaces around [X] is reported as not found. *)
Theorem spaced_placeholder_not_trimmed :
  Command_apply_vars (Command_of_text "echo ${{ X }}") {[ "X" := "hi" ]} =
    Raise (SystemExit "Variable  X  not found!") /\
  Command_apply_vars (Command_of_text "echo ${{X}}") {[ "X" := "hi" ]} =
    Ok (Command_of_text "echo hi").
Proof. split; reflexivity. Qed.

(** C7: the text is scanned once, but every replacement acts on the whole
    text the command has by then, values substituted earlier included.
    The value of [A] is the text of the placeholder [B], which the command
    contains further on: the replacement made for that later match rewrites
    the value too, and the text of the placeholder [B] that stood for [A]
    is not in the result.  A value that is the text of a placeholder the
    command does not contain stays as it is. *)
Theorem substituted_value_rewritten :
  Command_apply_vars (Command_of_text "${{A}} ${{B}}")
    (<[ "A" := "${{B}}" ]> {[ "B" := "x" ]}) = Ok (Command_of_text "x x") /\
  occurs "${{B}}" "x x" = false /\
  Command_apply_vars (Command_of_text "${{A}} ${{B}}")
    (<[ "A" := "${{Z}}" ]> {[ "B" := "x" ]}) = Ok (Command_of_text "${{Z}} x").
Proof. repeat split; reflexivity. Qed.

Lemma for_each_singleton {A B} (f : B -> A -> result B) (a : A) (b : B) :
  for_each f [a] b = f b a.
Proof. simpl. by destruct (f b a). Qed.

Lemma for_each_ext {A B} (f g : B -> A -> result B) (l : list A) (b : B) :
  (forall a b, a ∈ l -> f b a = g b a) -> for_each f l b = for_each g l b.
Proof.
  revert b. induction l as [|a l IH]; intros b H; [done|].
  simpl. rewrite (H a b) by apply list_elem_of_here.
  destruct (g b a) as [b'|]; [|done]. simpl.
  apply IH. intros a' b'' Hin. apply H. by apply list_elem_of_further.
Qed.

Lemma resolve_match_ext (vars vars' : gmap string string) (c : Command) (m : Match) :
  vars' !! group1 m = vars !! group1 m ->
  resolve_match vars' c m = resolve_match vars c m.
Proof. unfold resolve_match. by intros ->. Qed.

(** The text is scanned once, before any substitution.  The names looked
    up are those of the placeholders of the text the command had: two
    scopes that agree on them give the same outcome, whatever else they
    bind and whatever the values contain.  And in a command with one
    placeholder the value stands in the result in place of the
    placeholder, as it is. *)
Lemma apply_vars_scans_original_text (c : Command) (text : string)
    (vars : gmap string string) :
  command c = PStr text ->
  (forall vars' : gmap string string,
     (forall m, m ∈ finditer text -> vars' !! group1 m = vars !! group1 m) ->
     Command_apply_vars c vars' = Command_apply_vars c vars) /\
  (forall m v,
     finditer text = [m] -> vars !! group1 m = Some v ->
     exists pre post,
       text = pre +:+ group0 m +:+ post /\
       Command_apply_vars c vars =
         Ok (setattr c a_command (PStr (pre +:+ v +:+ post)))).
Proof.
  intros Hc. split.
  - intros vars' Hagree. unfold Command_apply_vars. rewrite Hc.
    apply for_each_ext. intros m c0 Hin. by apply resolve_match_ext, Hagree.
  - intros m v Hms Hv.
    assert (m ∈ finditer text) as Hin by (rewrite Hms; apply list_elem_of_here).
    apply finditer_sound in Hin as (_ & name & _ & _ & -> & Hn).
    destruct (replace_scanned name v text Hn) as [_ H].
    destruct (H Hms) as (pre & post & Htext & Hr).
    exists pre, post. split; [done|].
    unfold Command_apply_vars. rewrite Hc, Hms, for_each_singleton.
    rewrite (resolve_match_text _ _ _ _ Hc), Hv.
    cbn [group0]. by rewrite Hr.
Qed.

(** C10: when [Command.apply_vars] returns, the attributes other than
    [command] are those of the command it was given. *)
Theorem apply_vars_frame (c c' : Command) (vars : gmap string string) :
  Command_apply_vars c vars = Ok c' ->
  expect c' = expect c /\ timeout c' = timeout c /\ echo c' = echo c /\
  check_exit_code c' = check_exit_code c /\ should_fail c' = should_fail c.
Proof.
  unfold Command_apply_vars. destruct (command c) as [| | |text| | |] eqn:Hc; try done.
  intros H. by destruct (for_each_frame _ _ _ _ _ Hc H) as [_ ?].
Qed.

Lemma apply_vars_frame_witness :
  let c := mkCommand (PStr "echo ${{X}}") (PStr "hi") (PInt 5) (PBool true) PNone (PBool false) in
  let c' := mkCommand (PStr "echo hi") (PStr "hi") (PInt 5) (PBool true) PNone (PBool false) in
  expect c' = expect c /\ timeout c' = timeout c /\ echo c' = echo c /\
  check_exit_code c' = check_exit_code c /\ should_fail c' = should_fail c.
Proof.
  intros c c'. apply (apply_vars_frame c c' {[ "X" := "hi" ]}). reflexivity.
Defined.

(** ** Inheritance of task policy *)

Section policy.
Implicit Types (c : Command) (v d : pyval).

Lemma apply_task_properties_policy c d1 d2 d3 d4 v1 v2 v3 v4 :
  _apply_task_properties c policy_keys [d1; d2; d3; d4] [v1; v2; v3; v4] =
  Ok (mkCommand (command c) (expect c)
        (pick (timeout c) d2 v2) (pick (echo c) d1 v1)
        (pick (check_exit_code c) d3 v3) (pick (should_fail c) d4 v4)).
Proof.
  destruct c as [co ex ti ec ch sh].
  unfold _apply_task_properties, policy_keys, pick. cbn.
  destruct (py_eq ec d1); cbn; destruct (py_eq ti d2); cbn;
    destruct (py_eq ch d3); cbn; destruct (py_eq sh d4); reflexivity.
Qed.

Lemma py_eq_None v : py_eq v PNone = true <-> v = PNone.
Proof. destruct v as [| | | | | |[]]; simpl; split; congruence. Qed.

Lemma py_eq_minus_one v : py_eq v (PInt (-1)) = true <-> v = PInt (-1).
Proof.
  destruct v as [|[]|z| | | |[]]; simpl; split; try congruence.
  - by intros ->%Z.eqb_eq.
  - intros [= ->]. done.
Qed.

Lemma pick_inherits own marker v :
  (py_eq own marker = true <-> own = marker) ->
  inherits own marker v (pick own marker v).
Proof.
  intros H. unfold inherits, pick. destruct (py_eq own marker) eqn:E.
  - split; [done|]. intros Hne. destruct Hne. by apply H.
  - split; [|done]. intros Heq. apply H in Heq. congruence.
Qed.
End policy.

(** C3: when the task properties are applied with the unset markers as
    defaults, each policy attribute of the command ends with the command's
    own value when that value differs from the unset marker of the
    attribute ([None], or [-1] for [timeout]), and with the value of the
    owning task, passed in [task_values], when it is the marker; a value
    that is merely the default of its type, such as [False], is kept.
    [command] and [expect] are not touched. *)
Theorem effective_policy (c : Command)
    (task_echo task_timeout task_check_exit_code task_should_fail : pyval) :
  exists c',
    _apply_task_properties c policy_keys unset_markers
      [task_echo; task_timeout; task_check_exit_code; task_should_fail] = Ok c' /\
    command c' = command c /\ expect c' = expect c /\
    inherits (echo c) PNone task_echo (echo c') /\
    inherits (timeout c) (PInt (-1)) task_timeout (timeout c') /\
    inherits (check_exit_code c) PNone task_check_exit_code (check_exit_code c') /\
    inherits (should_fail c) PNone task_should_fail (should_fail c').
Proof.
  exists (mkCommand (command c) (expect c)
            (pick (timeout c) (PInt (-1)) task_timeout)
            (pick (echo c) PNone task_echo)
            (pick (check_exit_code c) PNone task_check_exit_code)
            (pick (should_fail c) PNone task_should_fail)).
  split; [apply apply_task_properties_policy|].
  cbn [command expect echo timeout check_exit_code should_fail].
  split; [done|]. split; [done|].
  split; [apply pick_inherits, py_eq_None|].
  split; [apply pick_inherits, py_eq_minus_one|].
  split; apply pick_inherits, py_eq_None.
Qed.

(** A command that sets [echo] to [False] keeps it under a task that
    echoes, and a command that sets nothing takes the values of the task. *)
Example explicit_false_is_kept :
  _apply_task_properties
    (mkCommand (PStr "ls") PNone (PInt (-1)) (PBool false) PNone PNone)
    policy_keys unset_markers [PBool true; PInt 30; PBool true; PBool false] =
    Ok (mkCommand (PStr "ls") PNone (PInt 30) (PBool false) (PBool true) (PBool false)).
Proof. reflexivity. Qed.

(** ** Scopes *)

Lemma dict_or_lookup (a b : gmap string string) k :
  dict_or a b !! k = match b !! k with Some v => Some v | None => a !! k end.
Proof.
  unfold dict_or. rewrite lookup_union. destruct (b !! k), (a !! k); done.
Qed.

Lemma map_result_Forall2 {A B} (f : A -> result B) (l : list A) (l' : list B) :
  map_result f l = Ok l' <-> Forall2 (fun a b => f a = Ok b) l l'.
Proof.
  revert l'. induction l as [|a l IH]; intros l'; simpl.
  - split; [intros [= <-]; constructor | by intros ->%Forall2_nil_inv_l].
  - destruct (f a) as [b|e] eqn:Hfa; simpl.
    + destruct (map_result f l) as [bs|e] eqn:Hl; simpl.
      * split.
        -- intros [= <-]. constructor; [done|]. by apply IH.
        -- intros (b' & bs' & Hb & Hbs & ->)%Forall2_cons_inv_l.
           apply IH in Hbs. congruence.
      * split; [done|].
        intros (b' & bs' & Hb & Hbs & ->)%Forall2_cons_inv_l.
        apply IH in Hbs. done.
    + split; [done|].
      intros (b' & bs' & Hb & Hbs & ->)%Forall2_cons_inv_l. congruence.
Qed.

(** C2: every command of a task is resolved against one scope, in which a
    name bound by the per-run overrides has the override value, a name
    bound by the task and not by the overrides has the task's value, and
    the global defaults serve the other names. *)
Theorem Task_apply_vars_layered (task task' : Task.t)
    (default_vars overrides : gmap string string) :
  Task_apply_vars task default_vars overrides = Ok task' ->
  exists scope : gmap string string,
    (forall k, scope !! k = layered_lookup default_vars (Task.vars task) overrides k) /\
    Forall2 (fun c c' => Command_apply_vars c scope = Ok c')
      (Task.commands task) (Task.commands task').
Proof.
  unfold Task_apply_vars. intros H.
  exists (dict_or (dict_or default_vars (Task.vars task)) overrides). split.
  - intros k. unfold layered_lookup. by rewrite !dict_or_lookup.
  - destruct (map_result _ _) as [cs|e] eqn:Hcs; [|done].
    simpl in H. injection H as <-. simpl. by apply map_result_Forall2.
Qed.

(** ** Dictionaries and renamed keys *)

Section dicts.
Implicit Types (d acc : dict) (k : string) (v : pyval) (f : string -> string).

Lemma dict_get_set k k' v d :
  dict_get k (dict_set k' v d) =
  if String.eqb k k' then Some v else dict_get k d.
Proof.
  induction d as [|[k0 v0] d IH]; simpl; [done|].
  destruct (String.eqb_spec k' k0) as [->|Hne]; simpl.
  - by destruct (String.eqb k k0).
  - rewrite IH. destruct (String.eqb_spec k k0) as [->|]; [|done].
    destruct (String.eqb_spec k0 k'); [congruence|done].
Qed.

Lemma dict_has_set k k' v d :
  dict_has k (dict_set k' v d) = String.eqb k k' || dict_has k d.
Proof.
  unfold dict_has. rewrite dict_get_set. by destruct (String.eqb k k').
Qed.

Lemma distinct_keys_set k v d :
  distinct_keys d = true -> distinct_keys (dict_set k v d) = true.
Proof.
  induction d as [|[k0 v0] d IH]; simpl; [done|].
  intros [Hk0 Hd]%andb_true_iff.
  destruct (String.eqb_spec k k0) as [->|Hne]; simpl.
  - by rewrite Hk0, Hd.
  - rewrite dict_has_set, (IH Hd).
    destruct (String.eqb_spec k0 k); [congruence|]. simpl.
    by rewrite Hk0.
Qed.

Lemma distinct_keys_update d other :
  distinct_keys d = true -> distinct_keys (dict_update d other) = true.
Proof.
  unfold dict_update. revert d.
  induction other as [|[k v] other IH]; intros d Hd; simpl; [done|].
  apply IH. by apply distinct_keys_set.
Qed.

Lemma elem_of_dict_set k v k' v' d :
  (k, v) ∈ dict_set k' v' d -> (k, v) = (k', v') \/ (k, v) ∈ d.
Proof.
  induction d as [|[k0 v0] d IH]; simpl.
  - intros ->%list_elem_of_singleton. by left.
  - destruct (String.eqb_spec k' k0) as [->|Hne].
    + intros [->|Hin]%elem_of_cons; [by left|].
      right. by apply list_elem_of_further.
    + intros [->|Hin]%elem_of_cons; [right; apply list_elem_of_here|].
      destruct (IH Hin) as [?|?]; [by left|].
      right. by apply list_elem_of_further.
Qed.

Lemma dict_get_rename_fold f k d acc :
  dict_get k (fold_left (fun acc kv => dict_set (f kv.1) kv.2 acc) d acc) =
  fold_left (renamed_step f k) d (dict_get k acc).
Proof.
  revert acc. induction d as [|[k0 v0] d IH]; intros acc; simpl; [done|].
  by rewrite IH, dict_get_set.
Qed.

Lemma dict_get_rename_keys f k d :
  dict_get k (rename_keys f d) = fold_left (renamed_step f k) d None.
Proof. apply dict_get_rename_fold. Qed.

(** A key that [f] keeps, and that no other key is sent to, keeps its
    binding. *)
Lemma renamed_exclusive f k d o :
  (forall k', f k' = k <-> k' = k) -> distinct_keys d = true ->
  fold_left (renamed_step f k) d o =
  match dict_get k d with Some v => Some v | None => o end.
Proof.
  intros Hf. revert o. induction d as [|[k0 v0] d IH]; intros o; simpl; [done|].
  intros [Hk0 Hd]%andb_true_iff. rewrite (IH _ Hd). unfold renamed_step. simpl.
  destruct (String.eqb_spec k k0) as [->|Hne].
  - rewrite (proj2 (Hf k0) eq_refl), String.eqb_refl.
    unfold dict_has in Hk0. by destruct (dict_get k0 d).
  - destruct (String.eqb_spec k (f k0)) as [Heq|]; [|done].
    symmetry in Heq. apply (proj1 (Hf k0)) in Heq. congruence.
Qed.

Lemma dict_get_rename_exclusive f k d :
  (forall k', f k' = k <-> k' = k) -> distinct_keys d = true ->
  dict_get k (rename_keys f d) = dict_get k d.
Proof.
  intros Hf Hd. rewrite dict_get_rename_keys, (renamed_exclusive _ _ _ _ Hf Hd).
  by destruct (dict_get k d).
Qed.

(** What a renamed key is bound to comes from an entry of the mapping. *)
Lemma renamed_origin f k d o v :
  fold_left (renamed_step f k) d o = Some v ->
  o = Some v \/ exists k', (k', v) ∈ d /\ f k' = k.
Proof.
  revert o. induction d as [|[k0 v0] d IH]; intros o; simpl; [by left|].
  intros [Ho|(k' & Hin & Hk')]%IH.
  - unfold renamed_step in Ho. simpl in Ho.
    destruct (String.eqb_spec k (f k0)) as [->|]; [|by left].
    injection Ho as ->. right. exists k0. split; [apply list_elem_of_here|done].
  - right. exists k'. split; [by apply list_elem_of_further|done].
Qed.

(** Entries whose renamed key is not looked up do not matter. *)
Lemma renamed_filter f k (keep : string -> bool) d o :
  (forall k', f k' = k -> keep k' = true) ->
  fold_left (renamed_step f k) (List.filter (fun kv => keep kv.1) d) o =
  fold_left (renamed_step f k) d o.
Proof.
  intros Hkeep. revert o. induction d as [|[k0 v0] d IH]; intros o; simpl; [done|].
  destruct (keep k0) eqn:Hk0; simpl; [apply IH|].
  rewrite IH. f_equal. unfold renamed_step. simpl.
  destruct (String.eqb_spec k (f k0)) as [Heq|]; [|done].
  symmetry in Heq. apply Hkeep in Heq. congruence.
Qed.

Lemma dict_get_filter (keep : string -> bool) k d :
  keep k = true ->
  dict_get k (List.filter (fun kv => keep kv.1) d) = dict_get k d.
Proof.
  intros Hk. induction d as [|[k0 v0] d IH]; simpl; [done|].
  destruct (keep k0) eqn:Hk0; simpl.
  - by rewrite IH.
  - rewrite IH. destruct (String.eqb_spec k k0); [congruence|done].
Qed.

Lemma dict_set_filter (keep : string -> bool) k v d :
  keep k = true ->
  dict_set k v (List.filter (fun kv => keep kv.1) d) =
  List.filter (fun kv => keep kv.1) (dict_set k v d).
Proof.
  intros Hk. induction d as [|[k0 v0] d IH]; simpl; [by rewrite Hk|].
  destruct (String.eqb_spec k k0) as [<-|Hne]; simpl.
  - rewrite Hk. simpl. by rewrite String.eqb_refl.
  - destruct (keep k0) eqn:Hk0; simpl; [|done].
    destruct (String.eqb_spec k k0); [done|]. by rewrite IH.
Qed.
(** The binding of a key does not depend on the value set for a key that
    is renamed to another one. *)
Lemma renamed_other_key (f : string -> string) (k k0 : string) (v v' : pyval)
    (d : dict) (o : option pyval) :
  k <> f k0 ->
  fold_left (renamed_step f k) (dict_set k0 v d) o =
  fold_left (renamed_step f k) (dict_set k0 v' d) o.
Proof.
  intros Hk. revert o. induction d as [|[k1 v1] d IH]; intros o; simpl.
  - unfold renamed_step. simpl. by destruct (String.eqb_spec k (f k0)).
  - destruct (String.eqb_spec k0 k1) as [<-|Hne]; simpl; [|apply IH].
    f_equal. unfold renamed_step. simpl. by destruct (String.eqb_spec k (f k0)).
Qed.

End dicts.

(** ** Construction from mappings *)

Section construction.
Implicit Types (d data : dict) (k : string) (v : pyval) (c : Command) (t : Task.t).

Lemma is_field_elem fields k : is_field fields k = true <-> k ∈ fields.
Proof.
  unfold is_field. rewrite existsb_exists. split.
  - intros (x & Hin & ->%String.eqb_eq). by apply list_elem_of_In.
  - intros Hin. exists k. split; [by apply list_elem_of_In|apply String.eqb_refl].
Qed.

Lemma field_ext {T} (cv : conv T) data data' name default :
  dict_get name data = dict_get name data' ->
  field cv data name default = field cv data' name default.
Proof. unfold field. by intros ->. Qed.

Lemma Command_from_dict_ext data data' :
  (forall k, k ∈ Command_fields -> dict_get k data = dict_get k data') ->
  Command_from_dict data = Command_from_dict data'.
Proof.
  intros H. unfold Command_from_dict.
  rewrite (field_ext _ data data' "command") by (apply H; set_solver).
  rewrite (field_ext _ data data' "expect") by (apply H; set_solver).
  rewrite (field_ext _ data data' "timeout") by (apply H; set_solver).
  rewrite (field_ext _ data data' "echo") by (apply H; set_solver).
  rewrite (field_ext _ data data' "check_exit_code") by (apply H; set_solver).
  rewrite (field_ext _ data data' "should_fail") by (apply H; set_solver).
  done.
Qed.

Lemma Task_from_dict_ext data data' :
  (forall k, k ∈ Task_fields -> dict_get k data = dict_get k data') ->
  Task_from_dict data = Task_from_dict data'.
Proof.
  intros H. unfold Task_from_dict.
  rewrite (field_ext _ data data' "name") by (apply H; set_solver).
  rewrite (field_ext _ data data' "shell") by (apply H; set_solver).
  rewrite (field_ext _ data data' "requires") by (apply H; set_solver).
  rewrite (field_ext _ data data' "before") by (apply H; set_solver).
  rewrite (field_ext _ data data' "echo") by (apply H; set_solver).
  rewrite (field_ext _ data data' "timeout") by (apply H; set_solver).
  rewrite (field_ext _ data data' "fail_fast") by (apply H; set_solver).
  rewrite (field_ext _ data data' "check_exit_code") by (apply H; set_solver).
  rewrite (field_ext _ data data' "should_fail") by (apply H; set_solver).
  rewrite (field_ext _ data data' "sleep") by (apply H; set_solver).
  rewrite (field_ext _ data data' "disabled") by (apply H; set_solver).
  rewrite (field_ext _ data data' "commands") by (apply H; set_solver).
  rewrite (field_ext _ data data' "vars") by (apply H; set_solver).
  done.
Qed.

(** The lookups of field names do not see the unknown keys. *)
Lemma rename_without_unknown (f : string -> string) fields d k :
  k ∈ fields ->
  dict_get k (rename_keys f (without_unknown (fun k => is_field fields (f k)) d)) =
  dict_get k (rename_keys f d).
Proof.
  intros Hk. rewrite !dict_get_rename_keys. apply renamed_filter.
  intros k' <-. by apply is_field_elem.
Qed.

Lemma Command_load_without_unknown d :
  Command_load_from_dict (PDict (without_unknown known_Command_key d)) =
  Command_load_from_dict (PDict d).
Proof.
  unfold Command_load_from_dict, get_or_None, without_unknown.
  rewrite (dict_get_filter known_Command_key "command") by done.
  apply Command_from_dict_ext. intros k Hk.
  destruct (negb _).
  - rewrite (dict_set_filter known_Command_key) by done.
    by apply (rename_without_unknown Command_name_map Command_fields).
  - by apply (rename_without_unknown Command_name_map Command_fields).
Qed.

Lemma Task_load_without_unknown d :
  Task_load_from_dict (without_unknown known_Task_key d) = Task_load_from_dict d.
Proof.
  apply Task_from_dict_ext. intros k Hk.
  by apply (rename_without_unknown Task_name_map Task_fields).
Qed.
End construction.

(** C5, as stated, fails: a key that is no field and no hyphenated
    spelling of one does not make construction fail. *)
Lemma unknown_key_accepted :
  Command_load_from_dict (PDict [("command", PStr "ls"); ("bogus", PInt 1)]) =
    Ok (Command_of_text "ls") /\
  known_Command_key "bogus" = false /\
  Task_load_from_dict
    [("name", PStr "t"); ("shell", PStr "host"); ("refers", PStr "target")] =
    Ok (Task.mk "t" "host" [] [] false None true true false 0 false [] ∅) /\
  known_Task_key "refers" = false.
Proof. repeat split; reflexivity. Qed.

(** C5, amended: the keys of a record that are not known, after the
    hyphenated spellings are normalised, are ignored: construction of a
    [Command] or of a [Task] from the record gives what it gives for the
    record without these keys, the same object or the same error. *)
Theorem unknown_keys_ignored (d : dict) :
  Command_load_from_dict (PDict d) =
    Command_load_from_dict (PDict (without_unknown known_Command_key d)) /\
  Task_load_from_dict d = Task_load_from_dict (without_unknown known_Task_key d).
Proof.
  split; [symmetry; apply Command_load_without_unknown
         |symmetry; apply Task_load_without_unknown].
Qed.

Ltac invert_binds H :=
  repeat match type of H with
         | (?r ≫= _) = Ok _ =>
             let E := fresh "E" in
             destruct r eqn:E; [cbn [mbind result_bind bind] in H | discriminate H]
         end.

Section loading.
Implicit Types (d data : dict) (k : string) (v : pyval) (c : Command) (t : Task.t).

Lemma Command_name_map_command k : Command_name_map k = "command" <-> k = "command".
Proof.
  unfold Command_name_map.
  destruct (String.eqb_spec k "check-exit-code") as [->|]; [done|].
  destruct (String.eqb_spec k "should-fail") as [->|]; done.
Qed.

Lemma Task_name_map_commands k : Task_name_map k = "commands" <-> k = "commands".
Proof.
  unfold Task_name_map.
  destruct (String.eqb_spec k "fail-fast") as [->|]; [done|].
  destruct (String.eqb_spec k "check-exit-code") as [->|]; [done|].
  destruct (String.eqb_spec k "should-fail") as [->|]; done.
Qed.

Lemma Task_name_map_name k : Task_name_map k = "name" <-> k = "name".
Proof.
  unfold Task_name_map.
  destruct (String.eqb_spec k "fail-fast") as [->|]; [done|].
  destruct (String.eqb_spec k "check-exit-code") as [->|]; [done|].
  destruct (String.eqb_spec k "should-fail") as [->|]; done.
Qed.

Lemma field_Some {T} (cv : conv T) data name default v :
  dict_get name data = Some v -> field cv data name default = cv name v.
Proof. unfold field. by intros ->. Qed.

Lemma Command_from_dict_command data c v :
  Command_from_dict data = Ok c -> dict_get "command" data = Some v ->
  command c = v.
Proof.
  unfold Command_from_dict. intros H Hv. rewrite (field_Some _ _ _ _ _ Hv) in H.
  invert_binds H. injection H as <-. simpl.
  unfold checked in E. by destruct (is_instance TStr v); [injection E as ->|].
Qed.

Lemma field_checked_total data name (ty : annot) dflt :
  (forall v, dict_get name data = Some v -> is_instance ty v = true) ->
  exists v, field (checked ty) data name (Some dflt) = Ok v.
Proof.
  intros H. unfold field, checked. destruct (dict_get name data) as [v|].
  - rewrite (H v eq_refl). by exists v.
  - by exists dflt.
Qed.

Lemma Command_from_dict_total data :
  (forall name (ty : annot) v, (name, ty) ∈ Command_annotations ->
     dict_get name data = Some v -> is_instance ty v = true) ->
  exists c, Command_from_dict data = Ok c.
Proof.
  intros H. unfold Command_from_dict.
  destruct (field_checked_total data "command" TStr (PStr EmptyString)) as [co ->];
    [intros v; apply H; set_solver|].
  destruct (field_checked_total data "expect" TOptStr PNone) as [ex ->];
    [intros v; apply H; set_solver|].
  destruct (field_checked_total data "timeout" TOptInt (PInt (-1))) as [ti ->];
    [intros v; apply H; set_solver|].
  destruct (field_checked_total data "echo" TOptBool PNone) as [ec ->];
    [intros v; apply H; set_solver|].
  destruct (field_checked_total data "check_exit_code" TOptBool PNone) as [ch ->];
    [intros v; apply H; set_solver|].
  destruct (field_checked_total data "should_fail" TOptBool PNone) as [sh ->];
    [intros v; apply H; set_solver|].
  by eexists.
Qed.

Lemma annotation_command (ty : annot) :
  ("command", ty) ∈ Command_annotations -> ty = TStr.
Proof.
  intros H.
  repeat (apply elem_of_cons in H as [H|H];
          [first [discriminate H | by injection H]|]).
  by apply elem_of_nil in H.
Qed.

(** The data [dacite] receives for a mapping whose [command] is missing
    or falsy. *)
Lemma falsy_command_data d :
  py_truthy (get_or_None "command" d) = false ->
  Command_load_from_dict (PDict d) =
  Command_from_dict (rename_keys Command_name_map (dict_set "command" (PStr EmptyString) d)).
Proof. intros H. unfold Command_load_from_dict. by rewrite H. Qed.

Lemma falsy_command_lookup d :
  distinct_keys d = true ->
  dict_get "command" (rename_keys Command_name_map (dict_set "command" (PStr EmptyString) d)) =
  Some (PStr EmptyString).
Proof.
  intros Hd. rewrite dict_get_rename_exclusive.
  - by rewrite dict_get_set.
  - apply Command_name_map_command.
  - by apply distinct_keys_set.
Qed.

Lemma map_result_fmap_Ok {A B} (f : A -> result B) (g : B -> A) (l : list B) :
  (forall b, f (g b) = Ok b) -> map_result f (g <$> l) = Ok l.
Proof.
  intros H. induction l as [|b l IH]; [done|].
  rewrite fmap_cons. cbn [map_result]. by rewrite H, IH.
Qed.

Lemma as_commands_instances path (cs : list Command) :
  as_commands path (PList (PCommand <$> cs)) = Ok cs.
Proof. unfold as_commands. by apply map_result_fmap_Ok. Qed.

Lemma Task_from_dict_inv data t :
  Task_from_dict data = Ok t ->
  field as_str data "name" None = Ok (Task.name t) /\
  field as_commands data "commands" (Some []) = Ok (Task.commands t).
Proof.
  unfold Task_from_dict. intros H. invert_binds H. by injection H as <-.
Qed.

Lemma Task_load_commands d (cs : list Command) t :
  distinct_keys d = true ->
  Task_load_from_dict (dict_set "commands" (PList (PCommand <$> cs)) d) = Ok t ->
  Task.commands t = cs.
Proof.
  intros Hd [_ H]%Task_from_dict_inv.
  erewrite field_Some in H.
  2:{ rewrite dict_get_rename_exclusive.
      - by rewrite dict_get_set.
      - apply Task_name_map_commands.
      - by apply distinct_keys_set. }
  rewrite as_commands_instances in H. by injection H.
Qed.

Lemma Task_load_name d name t :
  distinct_keys d = true -> dict_get "name" d = Some (PStr name) ->
  Task_load_from_dict d = Ok t -> Task.name t = name.
Proof.
  intros Hd Hn [H _]%Task_from_dict_inv.
  erewrite field_Some in H.
  2:{ rewrite dict_get_rename_exclusive; [done|apply Task_name_map_name|done]. }
  by injection H.
Qed.
Lemma Task_from_dict_Ok (data : dict) (t : Task.t) :
  Task_from_dict data = Ok t <->
  field as_str data "name" None = Ok (Task.name t) /\
  field as_str data "shell" None = Ok (Task.shell t) /\
  field as_str_list data "requires" (Some []) = Ok (Task.requires t) /\
  field as_str_list data "before" (Some []) = Ok (Task.before t) /\
  field as_bool data "echo" (Some false) = Ok (Task.echo t) /\
  field as_opt_int data "timeout" (Some None) = Ok (Task.timeout t) /\
  field as_bool data "fail_fast" (Some true) = Ok (Task.fail_fast t) /\
  field as_bool data "check_exit_code" (Some true) = Ok (Task.check_exit_code t) /\
  field as_bool data "should_fail" (Some false) = Ok (Task.should_fail t) /\
  field as_int data "sleep" (Some 0) = Ok (Task.sleep t) /\
  field as_bool data "disabled" (Some false) = Ok (Task.disabled t) /\
  field as_commands data "commands" (Some []) = Ok (Task.commands t) /\
  field as_str_dict data "vars" (Some ∅) = Ok (Task.vars t).
Proof.
  unfold Task_from_dict. split.
  - intros H. invert_binds H. injection H as <-. done.
  - destruct t. cbn [Task.name Task.shell Task.requires Task.before Task.echo
      Task.timeout Task.fail_fast Task.check_exit_code Task.should_fail
      Task.sleep Task.disabled Task.commands Task.vars].
    intros (-> & -> & -> & -> & -> & -> & -> & -> & -> & -> & -> & -> & ->).
    reflexivity.
Qed.

(** Replacing the commands of the data by instances of [Command] replaces
    the commands of the task and nothing else. *)
Lemma Task_load_replace_commands (d : dict) (cs cs' : list Command) (t : Task.t) :
  distinct_keys d = true ->
  Task_load_from_dict (dict_set "commands" (PList (PCommand <$> cs)) d) = Ok t ->
  Task_load_from_dict (dict_set "commands" (PList (PCommand <$> cs')) d) =
    Ok (Task.with_commands t cs').
Proof.
  intros Hd H. unfold Task_load_from_dict in *.
  apply Task_from_dict_Ok in H. apply Task_from_dict_Ok.
  assert (forall k, k <> "commands" ->
            dict_get k (rename_keys Task_name_map
                          (dict_set "commands" (PList (PCommand <$> cs')) d)) =
            dict_get k (rename_keys Task_name_map
                          (dict_set "commands" (PList (PCommand <$> cs)) d))) as Hk.
  { intros k Hk. rewrite !dict_get_rename_keys. by apply renamed_other_key. }
  destruct H as (H1 & H2 & H3 & H4 & H5 & H6 & H7 & H8 & H9 & H10 & H11 & H12 & H13).
  destruct t. cbn in *.
  rewrite (field_ext _ _ _ "name" _ (Hk "name" ltac:(done))).
  rewrite (field_ext _ _ _ "shell" _ (Hk "shell" ltac:(done))).
  rewrite (field_ext _ _ _ "requires" _ (Hk "requires" ltac:(done))).
  rewrite (field_ext _ _ _ "before" _ (Hk "before" ltac:(done))).
  rewrite (field_ext _ _ _ "echo" _ (Hk "echo" ltac:(done))).
  rewrite (field_ext _ _ _ "timeout" _ (Hk "timeout" ltac:(done))).
  rewrite (field_ext _ _ _ "fail_fast" _ (Hk "fail_fast" ltac:(done))).
  rewrite (field_ext _ _ _ "check_exit_code" _ (Hk "check_exit_code" ltac:(done))).
  rewrite (field_ext _ _ _ "should_fail" _ (Hk "should_fail" ltac:(done))).
  rewrite (field_ext _ _ _ "sleep" _ (Hk "sleep" ltac:(done))).
  rewrite (field_ext _ _ _ "disabled" _ (Hk "disabled" ltac:(done))).
  rewrite (field_ext _ _ _ "vars" _ (Hk "vars" ltac:(done))).
  repeat (split; [assumption|]).
  split; [|assumption].
  erewrite field_Some.
  2:{ rewrite dict_get_rename_exclusive.
      - by rewrite dict_get_set.
      - apply Task_name_map_commands.
      - by apply distinct_keys_set. }
  apply as_commands_instances.
Qed.
Lemma Task_name_map_exclusive (k : string) :
  k <> "fail_fast" -> k <> "check_exit_code" -> k <> "should_fail" ->
  k <> "fail-fast" -> k <> "check-exit-code" -> k <> "should-fail" ->
  forall k', Task_name_map k' = k <-> k' = k.
Proof.
  intros H1 H2 H3 H4 H5 H6 k'. unfold Task_name_map.
  destruct (String.eqb_spec k' "fail-fast") as [->|]; [split; congruence|].
  destruct (String.eqb_spec k' "check-exit-code") as [->|]; [split; congruence|].
  destruct (String.eqb_spec k' "should-fail") as [->|]; [split; congruence|].
  done.
Qed.

Lemma field_as_str_required (data : dict) (k s : string) :
  field as_str data k None = Ok s -> dict_get k data = Some (PStr s).
Proof.
  unfold field. destruct (dict_get k data) as [v|]; [|done].
  destruct v; try done. by intros [= ->].
Qed.

(** A task that is loaded from a mapping took its [name] and its [shell]
    from the entries of these keys. *)
Lemma Task_load_required (d : dict) (t : Task.t) :
  distinct_keys d = true ->
  Task_load_from_dict d = Ok t ->
  dict_get "name" d = Some (PStr (Task.name t)) /\
  dict_get "shell" d = Some (PStr (Task.shell t)).
Proof.
  intros Hd H. apply Task_from_dict_Ok in H as (Hn & Hs & _).
  apply field_as_str_required in Hn, Hs.
  rewrite dict_get_rename_exclusive in Hn, Hs;
    [done|by apply Task_name_map_exclusive|done|by apply Task_name_map_exclusive|done].
Qed.
End loading.

(** C9, as stated, fails: a mapping without [command] whose [timeout] is
    text is refused. *)
Lemma missing_command_ill_typed_rest :
  dict_get "command" [("timeout", PStr "soon")] = None /\
  Command_load_from_dict (PDict [("timeout", PStr "soon")]) =
    Raise (WrongTypeError "timeout").
Proof. split; reflexivity. Qed.

(** C9, amended: for a mapping that lacks [command] or binds it to a falsy
    value, [Command.load_from_dict] does not fail on account of the command:
    a [Command] it returns has the empty text, and it returns one whenever
    the other entries hold values of the types of the attributes they
    name. *)
Theorem falsy_command_loads_empty (d : dict) :
  distinct_keys d = true ->
  py_truthy (get_or_None "command" d) = false ->
  (forall c, Command_load_from_dict (PDict d) = Ok c -> command c = PStr EmptyString) /\
  (well_typed_rest d -> exists c, Command_load_from_dict (PDict d) = Ok c).
Proof.
  intros Hd Hfalsy. rewrite (falsy_command_data _ Hfalsy). split.
  - intros c Hc. eapply Command_from_dict_command; [done|].
    by apply falsy_command_lookup.
  - intros Hwt. apply Command_from_dict_total. intros name t v Hin Hv.
    destruct (decide (name = "command")) as [->|Hne].
    + rewrite (falsy_command_lookup _ Hd) in Hv. injection Hv as <-.
      by rewrite (annotation_command _ Hin).
    + rewrite dict_get_rename_keys in Hv.
      apply renamed_origin in Hv as [?|(k' & Hk' & Hname)]; [done|].
      apply elem_of_dict_set in Hk' as [[= -> _]|Hk'].
      * by destruct Hne.
      * apply (Hwt k' v t Hk'); [|by rewrite Hname].
        intros ->. by destruct Hne.
Qed.

Lemma falsy_command_loads_empty_witness :
  (forall c, Command_load_from_dict (PDict [("command", PInt 0); ("should-fail", PBool true)]) = Ok c ->
     command c = PStr EmptyString) /\
  Command_load_from_dict (PDict [("command", PInt 0); ("should-fail", PBool true)]) =
    Ok (mkCommand (PStr EmptyString) PNone (PInt (-1)) PNone PNone (PBool true)).
Proof.
  split; [|reflexivity].
  apply (falsy_command_loads_empty [("command", PInt 0); ("should-fail", PBool true)]);
    reflexivity.
Defined.

(** ** Lines *)

Section lines.
Implicit Types (s t acc : string) (c : ascii).

Lemma not_break_not_CR c : is_linebreak c = false -> Ascii.eqb c CR = false.
Proof.
  intros H. destruct (Ascii.eqb_spec c CR) as [->|]; [|done].
  by vm_compute in H.
Qed.

Lemma splitlines_acc_line acc s t :
  no_break s = true ->
  splitlines_acc acc (s +:+ String LF t) = (acc +:+ s) :: splitlines_acc EmptyString t.
Proof.
  revert acc. induction s as [|c s IH]; intros acc Hs.
  - by rewrite app_nil_r.
  - simpl in Hs. apply andb_true_iff in Hs as [Hc Hs].
    apply negb_true_iff in Hc. rewrite app_cons. simpl.
    rewrite (not_break_not_CR _ Hc), Hc, (IH _ Hs).
    by rewrite app_assoc.
Qed.

(** A line that a line feed closes is one item, empty or not. *)
Lemma splitlines_line s t :
  no_break s = true -> splitlines (s +:+ String LF t) = s :: splitlines t.
Proof. intros Hs. unfold splitlines. by rewrite splitlines_acc_line. Qed.

Lemma splitlines_acc_last acc s :
  no_break s = true ->
  splitlines_acc acc s = if String.eqb (acc +:+ s) EmptyString then [] else [acc +:+ s].
Proof.
  revert acc. induction s as [|c s IH]; intros acc Hs.
  - by rewrite app_nil_r.
  - simpl in Hs. apply andb_true_iff in Hs as [Hc Hs].
    apply negb_true_iff in Hc. simpl.
    rewrite (not_break_not_CR _ Hc), Hc, (IH _ Hs).
    by rewrite app_assoc.
Qed.

(** The text after the last line break is an item unless it is empty. *)
Lemma splitlines_last s :
  no_break s = true -> splitlines s = if String.eqb s EmptyString then [] else [s].
Proof. intros Hs. unfold splitlines. by rewrite splitlines_acc_last. Qed.
End lines.

(** ** Tasks from lines and from YAML *)

(** C4, as stated, fails twice: an empty line yields a [Command], with the
    empty text, and a parameter record without [shell] yields no [Task]. *)
Lemma empty_line_yields_command :
  Task_from_multiline_string "t" ("a" +:+ String LF (String LF "b"))
    [("shell", PStr "host")] =
    Ok (Task.mk "t" "host" [] [] false None true true false 0 false
          [Command_of_text "a"; Command_of_text EmptyString; Command_of_text "b"] ∅) /\
  List.filter non_empty (splitlines ("a" +:+ String LF (String LF "b"))) = ["a"; "b"] /\
  Task_from_multiline_string "t" "a" [] = Raise (MissingValueError "shell").
Proof. repeat split; reflexivity. Qed.

(** C4, amended: when the construction of a [Task] from a name, a
    multiline string and a parameter record succeeds, the task has the
    given name and one [Command] for each line of [str.splitlines], the
    empty lines included, in the order of the lines; each carries the text
    of its line and leaves [expect], [timeout], [echo], [check_exit_code]
    and [should_fail] at their unset defaults.  Whether the construction
    succeeds depends on the name and the parameter record only: with
    another string it yields the same task but for the commands. *)
Theorem from_multiline_string_commands (name str : string) (params : dict)
    (t : Task.t) :
  distinct_keys params = true ->
  Task_from_multiline_string name str params = Ok t ->
  Task.name t = name /\
  Task.commands t =
    (fun line => mkCommand (PStr line) PNone (PInt (-1)) PNone PNone PNone)
      <$> splitlines str /\
  (forall str',
     Task_from_multiline_string name str' params =
       Ok (Task.with_commands t (Command_of_text <$> splitlines str'))).
Proof.
  intros Hd H. unfold Task_from_multiline_string in *.
  pose proof (distinct_keys_set "name" (PStr name) _ Hd) as Hd'.
  split; [|split].
  - eapply Task_load_name; [|..|exact H].
    + by apply distinct_keys_set.
    + by rewrite !dict_get_set.
  - by apply (Task_load_commands _ _ _ Hd') in H.
  - intros str'. by apply (Task_load_replace_commands _ _ _ _ Hd' H).
Qed.

Lemma from_multiline_string_commands_witness :
  let t := Task.mk "t" "host" [] [] true None true true false 0 false
             [Command_of_text "a"; Command_of_text EmptyString; Command_of_text "b"] ∅ in
  Task.name t = "t" /\
  Task.commands t =
    (fun line => mkCommand (PStr line) PNone (PInt (-1)) PNone PNone PNone)
      <$> splitlines ("a" +:+ String LF (String LF "b")) /\
  (forall str',
     Task_from_multiline_string "t" str' [("shell", PStr "host"); ("echo", PBool true)] =
       Ok (Task.with_commands t (Command_of_text <$> splitlines str'))).
Proof.
  intros t.
  apply (from_multiline_string_commands "t" ("a" +:+ String LF (String LF "b"))
           [("shell", PStr "host"); ("echo", PBool true)] t); reflexivity.
Defined.

(** C8, as stated, fails: the text parses as a mapping with a [name], and
    yet no [Task] is returned, for want of a [shell]. *)
Lemma named_mapping_without_shell :
  Task_load_from_yaml (fun _ => Some (PDict [("name", PStr "t")])) "name: t" [] =
    Raise (MissingValueError "shell").
Proof. reflexivity. Qed.

(** C8, amended: construction from YAML raises [YAMLError] when the text
    does not parse as a mapping, and fails fatally when the mapping,
    updated with the overrides, has no [name].  Otherwise each entry of
    the [commands] of the updated mapping (none when the key is absent) is
    loaded with [Command.load_from_dict], and a [Task] that is returned has
    exactly these commands, one for each entry, in order; it is returned
    only when every entry loads and the mapping fits the fields of [Task],
    its [name] and its [shell] being text. *)
Theorem load_from_yaml_outcomes (safe_load : string -> option pyval)
    (yaml_string : string) (overrides : dict) :
  ((forall obj, safe_load yaml_string <> Some (PDict obj)) ->
   Task_load_from_yaml safe_load yaml_string overrides = Raise YAMLError) /\
  (forall obj,
     safe_load yaml_string = Some (PDict obj) -> distinct_keys obj = true ->
     (dict_has "name" (dict_update obj overrides) = false ->
      Task_load_from_yaml safe_load yaml_string overrides =
        Raise (SystemExit "Task description file must at least contain a 'name' field")) /\
     (dict_has "name" (dict_update obj overrides) = true ->
      forall t,
        Task_load_from_yaml safe_load yaml_string overrides = Ok t ->
        (exists coms,
           py_iter (default (PList [])
                      (dict_get "commands" (dict_update obj overrides))) = Ok coms /\
           Forall2 (fun com c => Command_load_from_dict com = Ok c)
             coms (Task.commands t)) /\
        dict_get "name" (dict_update obj overrides) = Some (PStr (Task.name t)) /\
        dict_get "shell" (dict_update obj overrides) = Some (PStr (Task.shell t)))).
Proof.
  unfold Task_load_from_yaml. split.
  - intros Hno. destruct (safe_load yaml_string) as [[| | | | |obj|]|]; try done.
    by destruct (Hno obj).
  - intros obj -> Hd. split.
    + by intros ->.
    + intros -> t H. cbn [mbind result_bind bind] in H.
      invert_binds H. rename a into coms, a0 into cs.
      pose proof (distinct_keys_update _ overrides Hd) as Hd'.
      split.
      * exists coms. split; [done|].
        apply map_result_Forall2.
        by apply Task_load_commands in H as ->.
      * apply Task_load_required in H; [|by apply distinct_keys_set].
        by rewrite !dict_get_set in H.
Qed.

Lemma load_from_yaml_outcomes_witness :
  let parsed :=
    PDict [("name", PStr "t");
           ("commands", PList [PStr "ls"; PDict [("command", PStr "pwd")]])] in
  let overrides := [("shell", PStr "target")] in
  let t := Task.mk "t" "target" [] [] false None true true false 0 false
             [Command_of_text "ls"; Command_of_text "pwd"] ∅ in
  Task_load_from_yaml (fun _ => Some (PInt 3)) "3" [] = Raise YAMLError /\
  Task_load_from_yaml (fun _ => Some (PDict [])) "{}" overrides =
    Raise (SystemExit "Task description file must at least contain a 'name' field") /\
  (exists coms,
     py_iter (default (PList [])
                (dict_get "commands"
                   (dict_update [("name", PStr "t");
                                 ("commands", PList [PStr "ls"; PDict [("command", PStr "pwd")]])]
                      overrides))) = Ok coms /\
     Forall2 (fun com c => Command_load_from_dict com = Ok c) coms (Task.commands t)) /\
  dict_get "name"
    (dict_update [("name", PStr "t");
                  ("commands", PList [PStr "ls"; PDict [("command", PStr "pwd")]])]
       overrides) = Some (PStr (Task.name t)) /\
  dict_get "shell"
    (dict_update [("name", PStr "t");
                  ("commands", PList [PStr "ls"; PDict [("command", PStr "pwd")]])]
       overrides) = Some (PStr (Task.shell t)).
Proof.
  intros parsed overrides t. split; [|split].
  - apply (proj1 (load_from_yaml_outcomes (fun _ => Some (PInt 3)) "3" [])).
    intros obj. discriminate.
  - apply (proj1 (proj2 (load_from_yaml_outcomes (fun _ => Some (PDict [])) "{}"
                           overrides) [] eq_refl eq_refl)).
    reflexivity.
  - apply (proj2 (proj2 (load_from_yaml_outcomes (fun _ => Some parsed) "name: t"
                           overrides) _ eq_refl eq_refl) eq_refl t).
    reflexivity.
Defined.

Lemma Task_apply_vars_layered_witness :
  let c := Command_of_text "echo ${{X}} ${{Y}} ${{Z}}" in
  let task := Task.mk "t" "host" [] [] false None true true false 0 false [c]
                (<[ "X" := "task" ]> {[ "Y" := "task" ]}) in
  let default_vars : gmap string string :=
    <[ "X" := "global" ]> (<[ "Y" := "global" ]> {[ "Z" := "global" ]}) in
  let overrides : gmap string string := {[ "X" := "run" ]} in
  exists scope : gmap string string,
    (forall k, scope !! k = layered_lookup default_vars (Task.vars task) overrides k) /\
    Forall2 (fun c c' => Command_apply_vars c scope = Ok c')
      [c] [Command_of_text "echo run task global"].
Proof.
  intros c task default_vars overrides.
  apply (Task_apply_vars_layered task
           (Task.with_commands task [Command_of_text "echo run task global"])
           default_vars overrides).
  reflexivity.
Defined.

(** * Further properties *)

(** ** Variable resolution *)

Lemma finditer_no_dollar (text : string) :
  all_chars (is_not "$") text = true -> finditer text = [].
Proof.
  intros Hfree. apply elem_of_nil_inv. intros m Hm.
  apply finditer_sound in Hm as (pre & name & post & -> & _ & _).
  rewrite all_chars_app, placeholder_cons in Hfree.
  apply andb_true_iff in Hfree as [_ Hfree].
  rewrite app_cons in Hfree. by simpl in Hfree.
Qed.

Lemma for_each_bound (vars : gmap string string) (ms : list Match) (c : Command)
    (text : string) :
  command c = PStr text ->
  (forall m, m ∈ ms -> is_Some (vars !! group1 m)) ->
  exists c', for_each (resolve_match vars) ms c = Ok c'.
Proof.
  revert c text. induction ms as [|m ms IH]; intros c text Hc Hb; simpl.
  - by exists c.
  - rewrite (resolve_match_text _ _ _ _ Hc).
    destruct (Hb m) as [v ->]; [apply list_elem_of_here|]. simpl.
    eapply IH; [apply setattr_command|].
    intros m' Hm'. apply Hb. by apply list_elem_of_further.
Qed.

Lemma for_each_Ok_bound (vars : gmap string string) (ms : list Match)
    (c c' : Command) (text : string) :
  command c = PStr text ->
  for_each (resolve_match vars) ms c = Ok c' ->
  forall m, m ∈ ms -> is_Some (vars !! group1 m).
Proof.
  intros Hc HOk m Hm. destruct (vars !! group1 m) as [v|] eqn:Hv; [by eexists|].
  destruct (for_each_unbound vars ms c text m Hc Hm Hv) as (m' & _ & _ & Hr).
  congruence.
Qed.

Lemma matches_bound_iff (vars : gmap string string) (text : string) :
  (forall m, m ∈ finditer text -> is_Some (vars !! group1 m)) <->
  placeholders_bound vars text.
Proof.
  split.
  - intros H pre name post -> Hn.
    apply (H (mkMatch (placeholder name) name)). by apply finditer_complete.
  - intros H m Hm.
    apply finditer_sound in Hm as (pre & name & post & -> & -> & Hn).
    by apply (H pre name post).
Qed.

Lemma apply_vars_Ok_iff (c : Command) (vars : gmap string string) :
  (exists c', Command_apply_vars c vars = Ok c') <->
  exists text, command c = PStr text /\ placeholders_bound vars text.
Proof.
  unfold Command_apply_vars. split.
  - intros [c' H]. destruct (command c) as [| | |text| | |] eqn:Hc; try done.
    exists text. split; [done|]. apply matches_bound_iff.
    by eapply for_each_Ok_bound.
  - intros (text & Hc & Hb). rewrite Hc.
    eapply for_each_bound; [done|]. by apply matches_bound_iff.
Qed.

(** X1: [Command.apply_vars] returns exactly when every placeholder of
    the text has its name in the scope. *)
Theorem apply_vars_succeeds_iff (c : Command) (text : string)
    (vars : gmap string string) :
  command c = PStr text ->
  ((exists c', Command_apply_vars c vars = Ok c') <->
   placeholders_bound vars text).
Proof.
  intros Hc. rewrite apply_vars_Ok_iff. split.
  - intros (text' & Hc' & Hb). rewrite Hc in Hc'. by injection Hc' as <-.
  - intros Hb. by exists text.
Qed.

Lemma apply_vars_succeeds_iff_witness :
  (exists c', Command_apply_vars (Command_of_text "echo ${{X}}") {[ "X" := "hi" ]} = Ok c') <->
  placeholders_bound {[ "X" := "hi" ]} "echo ${{X}}".
Proof.
  apply (apply_vars_succeeds_iff (Command_of_text "echo ${{X}}") "echo ${{X}}"
           {[ "X" := "hi" ]}).
  reflexivity.
Defined.

(** X2: a command whose text has no dollar sign is returned as it is,
    whatever the scope. *)
Theorem apply_vars_without_dollar (c : Command) (text : string)
    (vars : gmap string string) :
  command c = PStr text ->
  all_chars (is_not "$") text = true ->
  Command_apply_vars c vars = Ok c.
Proof.
  intros Hc Hfree. unfold Command_apply_vars.
  by rewrite Hc, (finditer_no_dollar _ Hfree).
Qed.

Lemma apply_vars_without_dollar_witness :
  Command_apply_vars (Command_of_text "ls -la /tmp") ∅ = Ok (Command_of_text "ls -la /tmp").
Proof.
  apply (apply_vars_without_dollar (Command_of_text "ls -la /tmp") "ls -la /tmp" ∅);
    reflexivity.
Defined.

Lemma apply_vars_weaken (c c' : Command) (vars vars' : gmap string string) :
  vars ⊆ vars' ->
  Command_apply_vars c vars = Ok c' -> Command_apply_vars c vars' = Ok c'.
Proof.
  intros Hsub H. rewrite <- H. unfold Command_apply_vars in *.
  destruct (command c) as [| | |text| | |] eqn:Hc; try done.
  apply for_each_ext. intros m c0 Hm. apply resolve_match_ext.
  destruct (for_each_Ok_bound _ _ _ _ _ Hc H m Hm) as [v Hv].
  rewrite Hv. by eapply lookup_weaken.
Qed.

(** X3: binding more variables does not change a resolution that
    succeeds: the command resolved in a scope is resolved the same in every
    scope that extends it. *)
Theorem apply_vars_monotone (c c' : Command) (vars vars' : gmap string string) :
  vars ⊆ vars' ->
  Command_apply_vars c vars = Ok c' -> Command_apply_vars c vars' = Ok c'.
Proof. apply apply_vars_weaken. Qed.

Lemma apply_vars_monotone_witness :
  Command_apply_vars (Command_of_text "echo ${{X}}")
    (<[ "Y" := "more" ]> {[ "X" := "hi" ]}) = Ok (Command_of_text "echo hi").
Proof.
  apply (apply_vars_monotone (Command_of_text "echo ${{X}}") _ {[ "X" := "hi" ]}).
  - apply insert_subseteq. reflexivity.
  - reflexivity.
Defined.

(** ** Resolution over a task *)

Lemma apply_vars_same_policy (c c' : Command) (vars : gmap string string) :
  Command_apply_vars c vars = Ok c' -> same_policy c c'.
Proof.
  unfold Command_apply_vars. destruct (command c) as [| | |text| | |] eqn:Hc; try done.
  intros H. by destruct (for_each_frame _ _ _ _ _ Hc H) as [_ ?].
Qed.

(** X4: when [Task.apply_vars] returns, the task differs from the one it
    was given in the text of its commands at most: the other fields of the
    task, the number and order of the commands and the policy attributes
    of each command are the same. *)
Theorem Task_apply_vars_frame (task task' : Task.t)
    (default_vars overrides : gmap string string) :
  Task_apply_vars task default_vars overrides = Ok task' ->
  task' = Task.with_commands task (Task.commands task') /\
  Forall2 same_policy (Task.commands task) (Task.commands task').
Proof.
  unfold Task_apply_vars. intros H.
  destruct (map_result _ _) as [cs|e] eqn:Hcs; [|done].
  simpl in H. injection H as <-. split; [reflexivity|]. simpl.
  apply map_result_Forall2 in Hcs.
  eapply Forall2_impl; [exact Hcs|].
  intros c c' Hcc'. simpl in Hcc'. exact (apply_vars_same_policy _ _ _ Hcc').
Qed.

Lemma Task_apply_vars_frame_witness :
  let c := mkCommand (PStr "echo ${{X}}") PNone (PInt 5) (PBool true) PNone PNone in
  let c' := mkCommand (PStr "echo hi") PNone (PInt 5) (PBool true) PNone PNone in
  let task := Task.mk "t" "host" ["a"] [] true (Some 3) false true false 2 true [c] ∅ in
  let task' := Task.with_commands task [c'] in
  task' = Task.with_commands task (Task.commands task') /\
  Forall2 same_policy (Task.commands task) (Task.commands task').
Proof.
  intros c c' task task'.
  apply (Task_apply_vars_frame task task' {[ "X" := "hi" ]} ∅). reflexivity.
Defined.

Lemma map_result_Raise {A B} (f : A -> result B) (l : list A) (e : exn) :
  map_result f l = Raise e ->
  exists l1 a l2 bs,
    l = l1 ++ a :: l2 /\ map_result f l1 = Ok bs /\ f a = Raise e.
Proof.
  induction l as [|a l IH]; simpl; [done|].
  destruct (f a) as [b|e'] eqn:Hfa; simpl.
  - destruct (map_result f l) as [bs|e'] eqn:Hl; simpl; [done|].
    intros [= ->]. destruct (IH eq_refl) as (l1 & a' & l2 & bs & -> & H1 & H2).
    exists (a :: l1), a', l2, (b :: bs). simpl. by rewrite Hfa, H1.
  - intros [= ->]. by exists [], a, l, [].
Qed.

(** X5: [Task.apply_vars] stops at the first command that does not
    resolve: when it raises, the commands before some command of the task
    all resolve, and the exception is the one that command raises. *)
Theorem Task_apply_vars_first_failure (task : Task.t)
    (default_vars overrides : gmap string string) (e : exn) :
  Task_apply_vars task default_vars overrides = Raise e ->
  exists before c after resolved,
    Task.commands task = before ++ c :: after /\
    Forall2
      (fun c0 c0' =>
         Command_apply_vars c0
           (dict_or (dict_or default_vars (Task.vars task)) overrides) = Ok c0')
      before resolved /\
    Command_apply_vars c
      (dict_or (dict_or default_vars (Task.vars task)) overrides) = Raise e.
Proof.
  unfold Task_apply_vars. intros H.
  destruct (map_result _ _) as [cs|e'] eqn:Hcs; [done|].
  simpl in H. injection H as ->.
  apply map_result_Raise in Hcs as (l1 & c & l2 & bs & Hl & H1 & H2).
  exists l1, c, l2, bs. split; [done|]. split; [|done].
  by apply map_result_Forall2.
Qed.

Lemma Task_apply_vars_first_failure_witness :
  let task := Task.mk "t" "host" [] [] false None true true false 0 false
                [Command_of_text "echo ${{X}}"; Command_of_text "echo ${{Y}}";
                 Command_of_text "echo ${{Z}}"] ∅ in
  exists before c after resolved,
    Task.commands task = before ++ c :: after /\
    Forall2
      (fun c0 c0' =>
         Command_apply_vars c0
           (dict_or (dict_or {[ "X" := "hi" ]} (Task.vars task)) ∅) = Ok c0')
      before resolved /\
    Command_apply_vars c
      (dict_or (dict_or {[ "X" := "hi" ]} (Task.vars task)) ∅) =
      Raise (SystemExit "Variable Y not found!").
Proof.
  intros task.
  apply (Task_apply_vars_first_failure task {[ "X" := "hi" ]} ∅). reflexivity.
Defined.

Lemma map_result_Ok_iff {A B} (f : A -> result B) (l : list A) :
  (exists bs, map_result f l = Ok bs) <-> forall a, a ∈ l -> exists b, f a = Ok b.
Proof.
  induction l as [|a l IH]; simpl.
  - split; [|by exists []]. intros _ a Ha. by apply elem_of_nil in Ha.
  - split.
    + intros [bs H]. destruct (f a) as [b|] eqn:Hfa; [|done]. simpl in H.
      destruct (map_result f l) as [bs'|] eqn:Hl; [|done].
      intros a' [->|Ha']%elem_of_cons; [by exists b|].
      apply (proj1 IH); [by exists bs'|done].
    + intros H. destruct (H a) as [b ->]; [apply list_elem_of_here|]. simpl.
      destruct (proj2 IH) as [bs ->]; [|by eexists].
      intros a' Ha'. apply H. by apply list_elem_of_further.
Qed.

(** X6: [Task.apply_vars] returns exactly when every command of the task
    holds text whose placeholders all have their names in the merged
    scope. *)
Theorem Task_apply_vars_succeeds_iff (task : Task.t)
    (default_vars overrides : gmap string string) :
  (exists task', Task_apply_vars task default_vars overrides = Ok task') <->
  forall c, c ∈ Task.commands task ->
    exists text,
      command c = PStr text /\
      placeholders_bound
        (dict_or (dict_or default_vars (Task.vars task)) overrides) text.
Proof.
  unfold Task_apply_vars. split.
  - intros [task' H] c Hc.
    destruct (map_result _ _) as [cs|e'] eqn:Hcs; [|done].
    apply apply_vars_Ok_iff.
    apply (proj1 (map_result_Ok_iff _ _) (ex_intro _ cs Hcs) c Hc).
  - intros H.
    destruct (proj2 (map_result_Ok_iff
                (fun c => Command_apply_vars c
                   (dict_or (dict_or default_vars (Task.vars task)) overrides))
                (Task.commands task))) as [cs ->].
    + intros c Hc. apply apply_vars_Ok_iff. by apply H.
    + by eexists.
Qed.

(** X7: enabling or disabling a task and resolving its variables do not
    interfere: either order gives the same task, or the same exception. *)
Theorem enable_apply_vars_commute (task : Task.t) (value : bool)
    (default_vars overrides : gmap string string) :
  Task_apply_vars (Task_enable task value) default_vars overrides =
  (task' ← Task_apply_vars task default_vars overrides;
   Ok (Task_enable task' value)).
Proof.
  unfold Task_apply_vars. simpl.
  by destruct (map_result _ _).
Qed.

(** ** Item access and task properties *)

Lemma getattr_setattr (c : Command) (a a' : attr) (v : pyval) :
  getattr (setattr c a v) a' = if decide (a' = a) then v else getattr c a'.
Proof. by destruct c, a, a'. Qed.

(** X8: item access round trip: after [self[key] = item] for the name of
    a field, [self[key]] is [item], and the other fields read as before. *)
Theorem setitem_getitem (c : Command) (key : attr) (item : pyval) :
  getitem (setitem c key item) key = item /\
  forall key', key' <> key -> getitem (setitem c key item) key' = getitem c key'.
Proof.
  unfold setitem, getitem. split.
  - rewrite getattr_setattr. by rewrite decide_True.
  - intros key' Hne. rewrite getattr_setattr. by rewrite decide_False.
Qed.

Section task_properties.
Variables defaults task_values : list pyval.

Lemma apply_task_property_Ok (c c' : Command) (it : nat) (key : attr) :
  apply_task_property defaults task_values c (it, key) = Ok c' ->
  exists d,
    defaults !! it = Some d /\
    (forall a', a' <> key -> getattr c' a' = getattr c a') /\
    ((py_eq (getattr c key) d = true /\
      exists v, task_values !! it = Some v /\ getattr c' key = v) \/
     (py_eq (getattr c key) d = false /\ getattr c' key = getattr c key)).
Proof.
  unfold apply_task_property, getitem, setitem, index.
  destruct (defaults !! it) as [d|]; [|done]. cbn [mbind result_bind bind].
  intros H. exists d. split; [done|].
  destruct (py_eq (getattr c key) d).
  - destruct (task_values !! it) as [v|]; [|done]. cbn [mbind result_bind bind] in H.
    injection H as <-. split.
    + intros a' Hne. by rewrite getattr_setattr, decide_False.
    + left. split; [done|]. exists v. split; [done|].
      by rewrite getattr_setattr, decide_True.
  - injection H as <-. split.
    + intros a' Hne. by rewrite getattr_setattr, decide_False.
    + right. split; [done|]. by rewrite getattr_setattr, decide_True.
Qed.

Lemma apply_task_property_total (c : Command) (it : nat) (key : attr) :
  (it < length defaults)%nat -> (it < length task_values)%nat ->
  exists c', apply_task_property defaults task_values c (it, key) = Ok c'.
Proof.
  intros [d Hd]%lookup_lt_is_Some_2 [v Hv]%lookup_lt_is_Some_2.
  unfold apply_task_property, index.
  rewrite Hd, Hv. cbn [mbind result_bind bind].
  destruct (py_eq _ _); cbn [mbind result_bind bind]; by eexists.
Qed.

Lemma for_each_property_frame (l : list (nat * attr)) (c c' : Command) (a : attr) :
  for_each (apply_task_property defaults task_values) l c = Ok c' ->
  (forall it, (it, a) ∉ l) ->
  getattr c' a = getattr c a.
Proof.
  revert c. induction l as [|[it key] l IH]; intros c H Hl; cbn [for_each] in H.
  - by injection H as <-.
  - destruct (apply_task_property _ _ c (it, key)) as [c1|] eqn:H1; [|done].
    cbn [mbind result_bind bind] in H. rewrite (IH c1 H).
    + apply (apply_task_property_Ok c c1 it key) in H1 as (d & _ & Hframe & _).
      apply Hframe. intros ->. apply (Hl it), list_elem_of_here.
    + intros it' Hin. apply (Hl it'). by apply list_elem_of_further.
Qed.

Lemma for_each_property_Ok (l : list (nat * attr)) (c c' : Command) :
  for_each (apply_task_property defaults task_values) l c = Ok c' ->
  forall it key, (it, key) ∈ l -> (it < length defaults)%nat.
Proof.
  revert c. induction l as [|[it key] l IH]; intros c H it' key' Hin; cbn [for_each] in H.
  - by apply elem_of_nil in Hin.
  - destruct (apply_task_property _ _ c (it, key)) as [c1|] eqn:H1; [|done].
    cbn [mbind result_bind bind] in H. apply elem_of_cons in Hin as [[= -> ->]|Hin].
    + apply (apply_task_property_Ok c c1 it key) in H1 as (d & Hd & _).
      by eapply lookup_lt_Some.
    + by apply (IH c1 H it' key').
Qed.

Lemma for_each_property_total (l : list (nat * attr)) (c : Command) :
  (forall it key, (it, key) ∈ l ->
     (it < length defaults)%nat /\ (it < length task_values)%nat) ->
  exists c', for_each (apply_task_property defaults task_values) l c = Ok c'.
Proof.
  revert c. induction l as [|[it key] l IH]; intros c Hl; cbn [for_each].
  - by exists c.
  - destruct (Hl it key) as (Hd & Hv); [apply list_elem_of_here|].
    destruct (apply_task_property_total c it key Hd Hv) as [c1 ->]. cbn [mbind result_bind bind].
    apply IH. intros it' key' Hin. apply (Hl it' key'). by apply list_elem_of_further.
Qed.

Lemma for_each_property_Raise (l : list (nat * attr)) (c : Command) (e : exn) :
  for_each (apply_task_property defaults task_values) l c = Raise e ->
  e = IndexError.
Proof.
  revert c. induction l as [|[it key] l IH]; intros c; cbn [for_each]; [done|].
  destruct (apply_task_property _ _ c (it, key)) as [c1|e1] eqn:H1;
    cbn [mbind result_bind bind]; [by apply IH|].
  intros [= <-]. revert H1. unfold apply_task_property, index.
  destruct (defaults !! it) as [d|]; cbn [mbind result_bind bind]; [|by intros [= <-]].
  destruct (py_eq _ _); [|done].
  destruct (task_values !! it) as [v|]; cbn [mbind result_bind bind]; [done|].
  by intros [= <-].
Qed.
End task_properties.

Lemma elem_of_indexed (keys : list attr) (it : nat) (key : attr) :
  (it, key) ∈ imap pair keys <-> keys !! it = Some key.
Proof.
  rewrite elem_of_lookup_imap. split.
  - by intros (i & y & [= -> ->] & Hy).
  - intros H. by exists it, key.
Qed.

(** X9: for [keys] that name fields, [_apply_task_properties] leaves alone
    every field that is not among them, whatever the lists it is given. *)
Theorem apply_task_properties_frame (c c' : Command) (keys : list attr)
    (defaults task_values : list pyval) (a : attr) :
  _apply_task_properties c keys defaults task_values = Ok c' ->
  a ∉ keys ->
  getitem c' a = getitem c a.
Proof.
  unfold _apply_task_properties, getitem. intros H Hkeys.
  eapply for_each_property_frame; [exact H|].
  intros it Hin%elem_of_indexed. apply Hkeys.
  by eapply list_elem_of_lookup_2.
Qed.

Lemma apply_task_properties_frame_witness :
  getitem (mkCommand (PStr "ls") (PStr "done") (PInt 9) (PBool true) PNone PNone) a_expect =
  getitem (mkCommand (PStr "ls") (PStr "done") (PInt (-1)) PNone PNone PNone) a_expect.
Proof.
  apply (apply_task_properties_frame
           (mkCommand (PStr "ls") (PStr "done") (PInt (-1)) PNone PNone PNone) _
           [a_timeout; a_echo] [PInt (-1); PNone] [PInt 9; PBool true] a_expect).
  - reflexivity.
  - intros Hkey.
    apply elem_of_cons in Hkey as [?|Hkey]; [discriminate|].
    apply elem_of_cons in Hkey as [?|Hkey]; [discriminate|].
    by apply elem_of_nil in Hkey.
Defined.

(** X10: the bounds of [_apply_task_properties], for [keys] that name
    fields: it returns whenever neither [defaults] nor [task_values] is
    shorter than [keys]; it raises [IndexError] whenever [defaults] is
    shorter than [keys]; and it raises nothing but [IndexError]. *)
Theorem apply_task_properties_bounds (c : Command) (keys : list attr)
    (defaults task_values : list pyval) :
  ((length keys <= length defaults)%nat ->
   (length keys <= length task_values)%nat ->
   exists c', _apply_task_properties c keys defaults task_values = Ok c') /\
  ((length defaults < length keys)%nat ->
   _apply_task_properties c keys defaults task_values = Raise IndexError) /\
  (forall e, _apply_task_properties c keys defaults task_values = Raise e ->
   e = IndexError).
Proof.
  unfold _apply_task_properties. split; [|split].
  - intros Hd Hv. apply for_each_property_total.
    intros it key Hin%elem_of_indexed.
    pose proof (lookup_lt_Some _ _ _ Hin). lia.
  - intros Hlt.
    destruct (for_each _ _ c) as [c'|e] eqn:H.
    + pose proof (for_each_property_Ok _ _ _ _ _ H) as Hall.
      destruct keys as [|k0 keys0]; [simpl in Hlt; lia|].
      assert (is_Some ((k0 :: keys0) !! length keys0)) as [k Hk]
        by (apply lookup_lt_is_Some_2; simpl; lia).
      pose proof (Hall (length keys0) k (proj2 (elem_of_indexed _ _ _) Hk)).
      simpl in Hlt. lia.
    + by rewrite (for_each_property_Raise _ _ _ _ _ H).
  - intros e. apply for_each_property_Raise.
Qed.

Lemma apply_task_properties_bounds_witness :
  (exists c', _apply_task_properties (Command_of_text "ls") [a_echo; a_timeout]
                [PNone; PInt (-1)] [PBool true; PInt 5] = Ok c') /\
  _apply_task_properties (Command_of_text "ls") [a_echo; a_timeout]
    [PNone] [PBool true; PInt 5] = Raise IndexError /\
  IndexError = IndexError.
Proof.
  split; [|split].
  - apply (proj1 (apply_task_properties_bounds (Command_of_text "ls")
                    [a_echo; a_timeout] [PNone; PInt (-1)] [PBool true; PInt 5]));
      simpl; lia.
  - apply (proj1 (proj2 (apply_task_properties_bounds (Command_of_text "ls")
                           [a_echo; a_timeout] [PNone] [PBool true; PInt 5])));
      simpl; lia.
  - apply (proj2 (proj2 (apply_task_properties_bounds (Command_of_text "ls")
                           [a_echo] [PNone] [])) IndexError).
    reflexivity.
Defined.

Lemma pick_idem (own d v : pyval) : pick (pick own d v) d v = pick own d v.
Proof.
  unfold pick. destruct (py_eq own d) eqn:E; [|by rewrite E].
  by destruct (py_eq v d).
Qed.

(** X11: applying the task properties twice is applying them once: for the
    four policy attributes and any defaults and task values, a second
    application with the same lists changes nothing. *)
Theorem apply_task_properties_idempotent (c : Command)
    (d1 d2 d3 d4 v1 v2 v3 v4 : pyval) :
  (c' ← _apply_task_properties c policy_keys [d1; d2; d3; d4] [v1; v2; v3; v4];
   _apply_task_properties c' policy_keys [d1; d2; d3; d4] [v1; v2; v3; v4]) =
  _apply_task_properties c policy_keys [d1; d2; d3; d4] [v1; v2; v3; v4].
Proof.
  rewrite (apply_task_properties_policy c). simpl.
  rewrite apply_task_properties_policy. simpl.
  by rewrite !pick_idem.
Qed.

(** ** Loading commands *)

Lemma Command_load_from_text (s : string) :
  Command_load_from_dict (PStr s) = Ok (Command_of_text s).
Proof. reflexivity. Qed.

(** X12: the string shorthand: a string loads as the [Command] that
    carries it and sets nothing else, and so does the mapping that binds
    [command] to the string, the empty string included. *)
Theorem string_shorthand (s : string) :
  Command_load_from_dict (PStr s) = Ok (Command_of_text s) /\
  Command_load_from_dict (PDict [("command", PStr s)]) =
    Command_load_from_dict (PStr s).
Proof.
  split; [reflexivity|].
  unfold Command_load_from_dict, get_or_None. simpl dict_get.
  destruct s as [|a s]; reflexivity.
Qed.

Section normalisation.
Variable name_map : string -> string.
Hypothesis name_map_idem : forall k, name_map (name_map k) = name_map k.

Lemma rename_keys_normalise_fold (d acc : dict) :
  fold_left (fun acc kv => dict_set (name_map kv.1) kv.2 acc)
    (normalise_keys name_map d) acc =
  fold_left (fun acc kv => dict_set (name_map kv.1) kv.2 acc) d acc.
Proof.
  revert acc. induction d as [|[k v] d IH]; intros acc; [done|].
  simpl. by rewrite name_map_idem, IH.
Qed.

Lemma rename_keys_normalise (d : dict) :
  rename_keys name_map (normalise_keys name_map d) = rename_keys name_map d.
Proof. apply rename_keys_normalise_fold. Qed.

Lemma dict_get_normalise (k : string) (d : dict) :
  (forall k', name_map k' = k <-> k' = k) ->
  dict_get k (normalise_keys name_map d) = dict_get k d.
Proof.
  intros Hk. induction d as [|[k0 v0] d IH]; [done|]. simpl.
  rewrite IH. destruct (String.eqb_spec k (name_map k0)) as [Heq|Hne].
  - symmetry in Heq. apply (proj1 (Hk k0)) in Heq. subst k0.
    by rewrite String.eqb_refl.
  - destruct (String.eqb_spec k k0) as [<-|]; [|done].
    destruct Hne. symmetry. by apply Hk.
Qed.

Lemma dict_set_normalise (k : string) (v : pyval) (d : dict) :
  (forall k', name_map k' = k <-> k' = k) ->
  dict_set k v (normalise_keys name_map d) =
  normalise_keys name_map (dict_set k v d).
Proof.
  intros Hk. induction d as [|[k0 v0] d IH]; simpl.
  - unfold normalise_keys. simpl. by rewrite (proj2 (Hk k) eq_refl).
  - destruct (String.eqb_spec k (name_map k0)) as [Heq|Hne].
    + symmetry in Heq. pose proof Heq as Heq'.
      apply (proj1 (Hk k0)) in Heq'. subst k0.
      rewrite String.eqb_refl. unfold normalise_keys. simpl. by rewrite Heq.
    + destruct (String.eqb_spec k k0) as [<-|Hne'].
      * destruct Hne. symmetry. by apply Hk.
      * unfold normalise_keys in *. simpl. by rewrite IH.
Qed.
End normalisation.

Lemma Command_name_map_idem (k : string) :
  Command_name_map (Command_name_map k) = Command_name_map k.
Proof.
  unfold Command_name_map.
  destruct (String.eqb_spec k "check-exit-code"); [done|].
  destruct (String.eqb_spec k "should-fail"); [done|].
  destruct (String.eqb_spec k "check-exit-code"); [done|].
  by destruct (String.eqb_spec k "should-fail").
Qed.

Lemma Task_name_map_idem (k : string) :
  Task_name_map (Task_name_map k) = Task_name_map k.
Proof.
  unfold Task_name_map.
  destruct (String.eqb_spec k "fail-fast"); [done|].
  destruct (String.eqb_spec k "check-exit-code"); [done|].
  destruct (String.eqb_spec k "should-fail"); [done|].
  destruct (String.eqb_spec k "fail-fast"); [done|].
  destruct (String.eqb_spec k "check-exit-code"); [done|].
  by destruct (String.eqb_spec k "should-fail").
Qed.

(** X13: the hyphenated spelling of a key and the name of the field are
    interchangeable: a record in which no field is given under both
    spellings loads as the record whose keys are all spelled as the
    fields, for [Command] and for [Task]. *)
Theorem hyphenated_spelling_equivalent (d : dict) :
  (distinct_keys (normalise_keys Command_name_map d) = true ->
   Command_load_from_dict (PDict (normalise_keys Command_name_map d)) =
   Command_load_from_dict (PDict d)) /\
  (distinct_keys (normalise_keys Task_name_map d) = true ->
   Task_load_from_dict (normalise_keys Task_name_map d) = Task_load_from_dict d).
Proof.
  split; intros _.
  - unfold Command_load_from_dict, get_or_None.
    rewrite (dict_get_normalise _ _ _ Command_name_map_command).
    destruct (negb _).
    + rewrite (dict_set_normalise _ _ _ _ Command_name_map_command).
      by rewrite (rename_keys_normalise _ Command_name_map_idem).
    + by rewrite (rename_keys_normalise _ Command_name_map_idem).
  - unfold Task_load_from_dict.
    by rewrite (rename_keys_normalise _ Task_name_map_idem).
Qed.

Lemma hyphenated_spelling_equivalent_witness :
  Command_load_from_dict
    (PDict [("command", PStr "ls"); ("check_exit_code", PBool false);
            ("should_fail", PBool true)]) =
  Command_load_from_dict
    (PDict [("command", PStr "ls"); ("check-exit-code", PBool false);
            ("should-fail", PBool true)]) /\
  Task_load_from_dict
    [("name", PStr "t"); ("shell", PStr "host"); ("fail_fast", PBool false)] =
  Task_load_from_dict
    [("name", PStr "t"); ("shell", PStr "host"); ("fail-fast", PBool false)].
Proof.
  split.
  - apply (proj1 (hyphenated_spelling_equivalent
                    [("command", PStr "ls"); ("check-exit-code", PBool false);
                     ("should-fail", PBool true)])).
    reflexivity.
  - apply (proj2 (hyphenated_spelling_equivalent
                    [("name", PStr "t"); ("shell", PStr "host");
                     ("fail-fast", PBool false)])).
    reflexivity.
Defined.

Lemma renamed_fold_last (f : string -> string) (k : string) (d : dict)
    (o : option pyval) :
  fold_left (renamed_step f k) d o =
  match last (spelled f k d) with
  | Some kv => Some kv.2
  | None => o
  end.
Proof.
  revert o. induction d as [|[k0 v0] d IH]; intros o; [done|].
  simpl. rewrite IH. unfold spelled, renamed_step. simpl.
  destruct (String.eqb k (f k0)); [|done].
  destruct (List.filter _ d) as [|kv l] eqn:Hf; [done|].
  rewrite last_cons_cons. destruct (last (kv :: l)) eqn:E; [done|].
  by apply last_None in E.
Qed.

(** X14: when several keys of a record are spellings of one field, the
    entry that comes last in the record gives the field its value: the
    data that [dacite] receives binds a key to the value of the last entry
    whose key normalises to it, and to nothing when there is none. *)
Theorem last_spelling_wins (name_map : string -> string) (k : string) (d : dict) :
  dict_get k (rename_keys name_map d) =
  (fun kv => kv.2) <$> last (spelled name_map k d).
Proof.
  rewrite dict_get_rename_keys, renamed_fold_last.
  by destruct (last _).
Qed.

Lemma field_checked_instance (data : dict) (name : string) (ty : annot)
    (dflt v : pyval) :
  is_instance ty dflt = true ->
  field (checked ty) data name (Some dflt) = Ok v -> is_instance ty v = true.
Proof.
  unfold field, checked. intros Hd.
  destruct (dict_get name data) as [w|].
  - destruct (is_instance ty w) eqn:Hw; [|done]. by intros [= <-].
  - by intros [= <-].
Qed.

Lemma Command_from_dict_Ok (data : dict) (c : Command) :
  Command_from_dict data = Ok c <->
  field (checked TStr) data "command" (Some (PStr EmptyString)) = Ok (command c) /\
  field (checked TOptStr) data "expect" (Some PNone) = Ok (expect c) /\
  field (checked TOptInt) data "timeout" (Some (PInt (-1))) = Ok (timeout c) /\
  field (checked TOptBool) data "echo" (Some PNone) = Ok (echo c) /\
  field (checked TOptBool) data "check_exit_code" (Some PNone) = Ok (check_exit_code c) /\
  field (checked TOptBool) data "should_fail" (Some PNone) = Ok (should_fail c).
Proof.
  unfold Command_from_dict. split.
  - intros H. invert_binds H. by injection H as <-.
  - destruct c. simpl. by intros (-> & -> & -> & -> & -> & ->).
Qed.

(** X15: a [Command] that [Command.load_from_dict] returns is well typed:
    its [command] is text, [expect] text or [None], [timeout] an integer or
    [None], and [echo], [check_exit_code] and [should_fail] are Booleans
    or [None]. *)
Theorem loaded_Command_well_typed (arg : pyval) (c : Command) :
  Command_load_from_dict arg = Ok c -> well_typed_Command c.
Proof.
  intros H.
  assert (exists data, Command_from_dict data = Ok c) as [data Hdata].
  { unfold Command_load_from_dict in H. destruct arg; try done; by eexists. }
  apply Command_from_dict_Ok in Hdata as (H1 & H2 & H3 & H4 & H5 & H6).
  repeat split; eapply field_checked_instance; try eassumption; done.
Qed.

Lemma loaded_Command_well_typed_witness :
  well_typed_Command (mkCommand (PStr "ls") PNone (PInt 5) PNone PNone (PBool true)).
Proof.
  apply (loaded_Command_well_typed
           (PDict [("command", PStr "ls"); ("timeout", PInt 5); ("should-fail", PBool true)])).
  reflexivity.
Defined.

Lemma renamed_absent (f : string -> string) (k : string) (d : dict) :
  (forall k' v, (k', v) ∈ d -> f k' <> k) ->
  dict_get k (rename_keys f d) = None.
Proof.
  intros H. rewrite dict_get_rename_keys.
  destruct (fold_left _ d None) as [v|] eqn:Hv; [|done].
  apply renamed_origin in Hv as [?|(k' & Hin & Hk')]; [done|].
  by destruct (H k' v Hin).
Qed.

Lemma field_absent {T} (cv : conv T) (data : dict) (name : string) (dflt v : T) :
  dict_get name data = None -> field cv data name (Some dflt) = Ok v -> v = dflt.
Proof. unfold field. intros ->. by intros [= <-]. Qed.

(** X16: a policy attribute that no key of the mapping spells takes the
    default of the dataclass: [None], and [-1] for [timeout]. *)
Theorem absent_attribute_default (d : dict) (c : Command) (key : string) (a : attr) :
  attr_of_key key = Some a -> a <> a_command ->
  (forall k v, (k, v) ∈ d -> Command_name_map k <> key) ->
  Command_load_from_dict (PDict d) = Ok c ->
  getattr c a = getattr Command_default a.
Proof.
  intros Ha Hne Habs H. unfold Command_load_from_dict in H.
  assert (key <> "command") as Hkey.
  { intros ->. injection Ha as <-. by destruct Hne. }
  assert (dict_get key
            (rename_keys Command_name_map
               (if negb (py_truthy (get_or_None "command" d))
                then dict_set "command" (PStr EmptyString) d else d)) = None) as Hnone.
  { apply renamed_absent. intros k' v Hin. destruct (negb _).
    - apply elem_of_dict_set in Hin as [[= -> _]|Hin]; [|by eapply Habs].
      by intros <-.
    - by eapply Habs. }
  apply Command_from_dict_Ok in H as (H1 & H2 & H3 & H4 & H5 & H6).
  unfold attr_of_key in Ha.
  repeat match type of Ha with
         | (if String.eqb key ?s then _ else _) = _ =>
             destruct (String.eqb_spec key s) as [->|]
         end; try done; injection Ha as <-; simpl;
    eapply field_absent; eassumption.
Qed.

Lemma absent_attribute_default_witness :
  getattr (mkCommand (PStr "ls") PNone (PInt (-1)) (PBool true) PNone PNone) a_timeout =
  getattr Command_default a_timeout.
Proof.
  apply (absent_attribute_default [("command", PStr "ls"); ("echo", PBool true)]
           _ "timeout" a_timeout).
  - reflexivity.
  - discriminate.
  - intros k v Hin.
    apply elem_of_cons in Hin as [[= -> _]|Hin]; [discriminate|].
    apply elem_of_cons in Hin as [[= -> _]|Hin]; [discriminate|].
    by apply elem_of_nil in Hin.
  - reflexivity.
Defined.

(** ** Loading tasks *)

Lemma Task_name_map_shell (k : string) : Task_name_map k = "shell" <-> k = "shell".
Proof. by apply Task_name_map_exclusive. Qed.

Lemma field_missing {T} (cv : conv T) (data : dict) (name : string) :
  dict_get name data = None ->
  field cv data name None = Raise (MissingValueError name).
Proof. unfold field. by intros ->. Qed.

(** X17: the fields a [Task] cannot do without: a mapping without [name]
    is refused for the missing [name], and a mapping with a [name] that is
    text and without [shell] for the missing [shell]. *)
Theorem Task_required_fields (d : dict) :
  distinct_keys d = true ->
  (dict_get "name" d = None ->
   Task_load_from_dict d = Raise (MissingValueError "name")) /\
  (forall name, dict_get "name" d = Some (PStr name) -> dict_get "shell" d = None ->
   Task_load_from_dict d = Raise (MissingValueError "shell")).
Proof.
  intros Hd. unfold Task_load_from_dict, Task_from_dict. split.
  - intros Hn. rewrite (field_missing as_str _ "name"); [done|].
    by rewrite (dict_get_rename_exclusive _ _ _ Task_name_map_name Hd).
  - intros name Hn Hs.
    rewrite (field_Some as_str _ "name" None (PStr name));
      [|by rewrite (dict_get_rename_exclusive _ _ _ Task_name_map_name Hd)].
    cbn [as_str mbind result_bind bind].
    rewrite (field_missing as_str _ "shell"); [done|].
    by rewrite (dict_get_rename_exclusive _ _ _ Task_name_map_shell Hd).
Qed.

Lemma Task_required_fields_witness :
  Task_load_from_dict [("shell", PStr "host")] = Raise (MissingValueError "name") /\
  Task_load_from_dict [("name", PStr "t"); ("echo", PBool true)] =
    Raise (MissingValueError "shell").
Proof.
  split.
  - apply (proj1 (Task_required_fields [("shell", PStr "host")] eq_refl)). reflexivity.
  - apply (proj2 (Task_required_fields [("name", PStr "t"); ("echo", PBool true)] eq_refl)
             "t"); reflexivity.
Defined.

Lemma dict_get_update (k : string) (d other : dict) :
  distinct_keys other = true ->
  dict_get k (dict_update d other) =
  match dict_get k other with Some v => Some v | None => dict_get k d end.
Proof.
  unfold dict_update. revert d.
  induction other as [|[k0 v0] other IH]; intros d Ho; [done|].
  simpl in Ho. apply andb_true_iff in Ho as [Hk0 Ho]. simpl.
  rewrite (IH _ Ho), dict_get_set.
  destruct (String.eqb_spec k k0) as [->|]; [|done].
  unfold dict_has in Hk0. by destruct (dict_get k0 other).
Qed.

Section yaml_properties.
Variable safe_load : string -> option pyval.

Lemma load_from_yaml_Ok (yaml_string : string) (overrides obj : dict) (t : Task.t) :
  safe_load yaml_string = Some (PDict obj) ->
  Task_load_from_yaml safe_load yaml_string overrides = Ok t ->
  exists coms cs,
    py_iter (default (PList [])
               (dict_get "commands" (dict_update obj overrides))) = Ok coms /\
    map_result Command_load_from_dict coms = Ok cs /\
    Task_load_from_dict
      (dict_set "commands" (PList (PCommand <$> cs)) (dict_update obj overrides)) = Ok t.
Proof.
  unfold Task_load_from_yaml. intros -> H.
  destruct (dict_has "name" _); [|done].
  cbn [mbind result_bind bind] in H. invert_binds H.
  by eexists _, _.
Qed.
End yaml_properties.

(** X18: the overrides win over the definition: the [name] and the
    [shell] that the override record binds to text are those of the task
    that is built, whatever the YAML text gives for them. *)
Theorem overrides_take_precedence (safe_load : string -> option pyval)
    (yaml_string : string) (overrides obj : dict) (t : Task.t) :
  safe_load yaml_string = Some (PDict obj) ->
  distinct_keys obj = true -> distinct_keys overrides = true ->
  Task_load_from_yaml safe_load yaml_string overrides = Ok t ->
  (forall name, dict_get "name" overrides = Some (PStr name) -> Task.name t = name) /\
  (forall shell, dict_get "shell" overrides = Some (PStr shell) -> Task.shell t = shell).
Proof.
  intros Hobj Hd Ho H.
  destruct (load_from_yaml_Ok _ _ _ _ _ Hobj H) as (coms & cs & _ & _ & Ht).
  apply Task_load_required in Ht as [Hn Hs];
    [|by apply distinct_keys_set, distinct_keys_update].
  rewrite dict_get_set in Hn, Hs. simpl in Hn, Hs.
  rewrite (dict_get_update "name" _ _ Ho) in Hn.
  rewrite (dict_get_update "shell" _ _ Ho) in Hs.
  split; intros x Hx; rewrite Hx in *; congruence.
Qed.

Lemma overrides_take_precedence_witness :
  let t := Task.mk "action_test" "target" [] [] false None true true false 0 false
             [Command_of_text "ls"] ∅ in
  (forall name, dict_get "name" [("name", PStr "action_test"); ("shell", PStr "target")] =
     Some (PStr name) -> Task.name t = name) /\
  (forall shell, dict_get "shell" [("name", PStr "action_test"); ("shell", PStr "target")] =
     Some (PStr shell) -> Task.shell t = shell).
Proof.
  intros t.
  apply (overrides_take_precedence
           (fun _ => Some (PDict [("name", PStr "mine"); ("shell", PStr "host");
                                  ("commands", PList [PStr "ls"])]))
           "name: mine"
           [("name", PStr "action_test"); ("shell", PStr "target")]
           [("name", PStr "mine"); ("shell", PStr "host");
            ("commands", PList [PStr "ls"])] t); reflexivity.
Defined.

(** X19: the [commands] of a definition: when the mapping has no such key
    the task that is built has no commands, and when the key is bound to
    [None], to a Boolean or to a number the construction raises
    [TypeError], the default applying to an absent key only. *)
Theorem commands_absent_or_not_iterable (safe_load : string -> option pyval)
    (yaml_string : string) (overrides obj : dict) :
  safe_load yaml_string = Some (PDict obj) ->
  distinct_keys obj = true ->
  dict_has "name" (dict_update obj overrides) = true ->
  (dict_get "commands" (dict_update obj overrides) = None ->
   forall t, Task_load_from_yaml safe_load yaml_string overrides = Ok t ->
     Task.commands t = []) /\
  (forall v, dict_get "commands" (dict_update obj overrides) = Some v ->
     (v = PNone \/ (exists b, v = PBool b) \/ (exists z, v = PInt z)) ->
     Task_load_from_yaml safe_load yaml_string overrides = Raise TypeError).
Proof.
  intros Hobj Hd Hname. split.
  - intros Hnone t H.
    destruct (load_from_yaml_Ok _ _ _ _ _ Hobj H) as (coms & cs & Hc & Hcs & Ht).
    rewrite Hnone in Hc. injection Hc as <-. injection Hcs as <-.
    apply (Task_load_commands _ []) in Ht; [done|].
    by apply distinct_keys_update.
  - intros v Hv Hcase. unfold Task_load_from_yaml. rewrite Hobj, Hname, Hv.
    by destruct Hcase as [->|[[b ->]|[z ->]]].
Qed.

Lemma commands_absent_or_not_iterable_witness :
  (forall t,
     Task_load_from_yaml (fun _ => Some (PDict [("name", PStr "t"); ("shell", PStr "host")]))
       "name: t" [] = Ok t -> Task.commands t = []) /\
  Task_load_from_yaml
    (fun _ => Some (PDict [("name", PStr "t"); ("commands", PNone)])) "name: t" [] =
    Raise TypeError.
Proof.
  split.
  - apply (proj1 (commands_absent_or_not_iterable
                    (fun _ => Some (PDict [("name", PStr "t"); ("shell", PStr "host")]))
                    "name: t" [] _ eq_refl eq_refl eq_refl)).
    reflexivity.
  - apply (proj2 (commands_absent_or_not_iterable
                    (fun _ => Some (PDict [("name", PStr "t"); ("commands", PNone)]))
                    "name: t" [] _ eq_refl eq_refl eq_refl) PNone).
    + reflexivity.
    + by left.
Defined.

Lemma load_texts (ss : list string) :
  map_result Command_load_from_dict (PStr <$> ss) = Ok (Command_of_text <$> ss).
Proof.
  induction ss as [|s ss IH]; [done|].
  rewrite !fmap_cons. cbn [map_result]. rewrite Command_load_from_text.
  cbn [mbind result_bind bind]. by rewrite IH.
Qed.

(** X20: a definition whose [commands] is a list of strings yields a task
    with one [Command] for each string, in order, each carrying its string
    and setting nothing else. *)
Theorem commands_of_strings (safe_load : string -> option pyval)
    (yaml_string : string) (overrides obj : dict) (ss : list string) (t : Task.t) :
  safe_load yaml_string = Some (PDict obj) ->
  distinct_keys obj = true ->
  dict_get "commands" (dict_update obj overrides) = Some (PList (PStr <$> ss)) ->
  Task_load_from_yaml safe_load yaml_string overrides = Ok t ->
  Task.commands t = Command_of_text <$> ss.
Proof.
  intros Hobj Hd Hc H.
  destruct (load_from_yaml_Ok _ _ _ _ _ Hobj H) as (coms & cs & Hcoms & Hcs & Ht).
  rewrite Hc in Hcoms. injection Hcoms as <-.
  rewrite load_texts in Hcs. injection Hcs as <-.
  apply Task_load_commands in Ht; [done|]. by apply distinct_keys_update.
Qed.

Lemma commands_of_strings_witness :
  Task.commands
    (Task.mk "t" "host" [] [] false None true true false 0 false
       [Command_of_text "make"; Command_of_text "make install"] ∅) =
  Command_of_text <$> ["make"; "make install"].
Proof.
  apply (commands_of_strings
           (fun _ => Some (PDict [("name", PStr "t"); ("shell", PStr "host");
                                  ("commands", PList [PStr "make"; PStr "make install"])]))
           "name: t" []
           [("name", PStr "t"); ("shell", PStr "host");
            ("commands", PList [PStr "make"; PStr "make install"])]
           ["make"; "make install"]); reflexivity.
Defined.

(** X21: the edge cases of the lines: for a string without line break,
    the task built from it has no command when the string is empty and
    otherwise the one command that carries the string. *)
Theorem single_line_commands (name str : string) (params : dict) (t : Task.t) :
  distinct_keys params = true ->
  no_break str = true ->
  Task_from_multiline_string name str params = Ok t ->
  Task.commands t =
    if String.eqb str EmptyString then [] else [Command_of_text str].
Proof.
  intros Hd Hs H. unfold Task_from_multiline_string in H.
  apply Task_load_commands in H; [|by apply distinct_keys_set].
  rewrite H, (splitlines_last _ Hs). by destruct (String.eqb str EmptyString).
Qed.

Lemma single_line_commands_witness :
  Task.commands
    (Task.mk "t" "host" [] [] false None true true false 0 false [] ∅) =
  if String.eqb EmptyString EmptyString then [] else [Command_of_text EmptyString].
Proof.
  apply (single_line_commands "t" EmptyString [("shell", PStr "host")]); reflexivity.
Defined.

Lemma dict_set_set (k : string) (v v' : pyval) (d : dict) :
  dict_set k v (dict_set k v' d) = dict_set k v d.
Proof.
  induction d as [|[k0 v0] d IH]; simpl.
  - by rewrite String.eqb_refl.
  - destruct (String.eqb_spec k k0) as [->|Hne]; simpl.
    + by rewrite String.eqb_refl.
    + destruct (String.eqb_spec k k0); [done|]. by rewrite IH.
Qed.

Lemma dict_update_nil (d : dict) : dict_update d [] = d.
Proof. reflexivity. Qed.

(** X22: the two constructors agree: building a task from a name, a
    multiline string and a parameter record is loading the definition
    that is the parameter record with the name and, as [commands], the
    list of the lines of the string. *)
Theorem from_multiline_string_as_yaml (safe_load : string -> option pyval)
    (yaml_string name str : string) (params : dict) :
  safe_load yaml_string =
    Some (PDict (dict_set "commands" (PList (PStr <$> splitlines str))
                   (dict_set "name" (PStr name) params))) ->
  Task_load_from_yaml safe_load yaml_string [] =
  Task_from_multiline_string name str params.
Proof.
  intros Hobj. unfold Task_load_from_yaml, Task_from_multiline_string.
  rewrite Hobj, dict_update_nil.
  rewrite !dict_has_set. cbn [String.eqb Ascii.eqb Bool.eqb orb].
  rewrite dict_get_set. cbn [String.eqb Ascii.eqb Bool.eqb default].
  cbn [py_iter id mbind result_bind bind]. rewrite load_texts.
  cbn [mbind result_bind bind]. by rewrite dict_set_set.
Qed.

Lemma from_multiline_string_as_yaml_witness :
  Task_load_from_yaml
    (fun _ => Some (PDict [("shell", PStr "host"); ("name", PStr "t");
                           ("commands", PList [PStr "a"; PStr "b"])]))
    "shell: host" [] =
  Task_from_multiline_string "t" ("a" +:+ String LF "b") [("shell", PStr "host")].
Proof.
  apply (from_multiline_string_as_yaml _ "shell: host" "t" ("a" +:+ String LF "b")
           [("shell", PStr "host")]).
  reflexivity.
Defined.

(** ** The board *)

Lemma default_boards_lookup (arch : string) :
  default_boards !! arch = if String.eqb arch "riscv64" then Some "hifive_unleashed" else None.
Proof.
  unfold default_boards. destruct (String.eqb_spec arch "riscv64") as [->|Hne].
  - apply lookup_singleton_eq.
  - by apply lookup_singleton_ne.
Qed.

Section board_properties.
Context {World : Type}.
Variable get_file : string -> string -> World -> result World.

Lemma configure_board_riscv64 (board resc repl : string) (w : World) :
  configure_board get_file "riscv64" board resc repl w =
  if String.eqb (resolved_board board) "custom"
     && (String.eqb resc "default" || String.eqb repl "default")
  then Raise (SystemExit "You have to provide resc and repl for custom board")
  else w' ← run_fetches get_file (fetches (resolved_board board) resc repl) w;
       Ok ("riscv64", resolved_board board,
           fetches (resolved_board board) resc repl, w').
Proof.
  unfold configure_board, resolved_board. rewrite default_boards_lookup.
  cbn [String.eqb Ascii.eqb Bool.eqb default id].
  rewrite decide_True by (by eexists).
  cbn [mbind result_bind bind].
  destruct (_ && _); [done|]. cbn [mbind result_bind bind].
  unfold fetches, run_fetches, fetch.
  destruct (String.eqb resc "default"), (String.eqb repl "default");
    cbn [negb app for_each fst snd source target mbind result_bind bind]; try done.
  - by destruct (get_file repl _ w).
  - by destruct (get_file resc _ w).
  - destruct (get_file resc _ w) as [w1|]; cbn [fst snd mbind result_bind bind]; [|done].
    by destruct (get_file repl _ w1).
Qed.

Lemma configure_board_other (arch board resc repl : string) (w : World) :
  arch <> "riscv64" ->
  configure_board get_file arch board resc repl w =
  Raise (SystemExit "Architecture not supportted!").
Proof.
  intros Hne. unfold configure_board. rewrite default_boards_lookup.
  by destruct (String.eqb_spec arch "riscv64").
Qed.

Lemma resolved_board_custom (board : string) :
  String.eqb (resolved_board board) "custom" = String.eqb board "custom".
Proof. unfold resolved_board. by destruct (String.eqb_spec board "default") as [->|]. Qed.

End board_properties.

(** X23: [configure_board] returns exactly when the architecture is
    [riscv64], the board is not [custom] with [resc] or [repl] left at
    [default], and the fetches of the files return; both fatal errors
    come before any fetch.  It then returns the architecture it was given
    and the board, [hifive_unleashed] standing for [default], so that the
    board it returns is never [default]. *)
Theorem configure_board_returns {World : Type}
    (get_file : string -> string -> World -> result World)
    (arch board resc repl : string) (w : World) :
  ((exists r, configure_board get_file arch board resc repl w = Ok r) <->
   arch = "riscv64" /\
   ~ (board = "custom" /\ (resc = "default" \/ repl = "default")) /\
   exists w', run_fetches get_file (fetches (resolved_board board) resc repl) w = Ok w') /\
  (arch <> "riscv64" \/ board = "custom" /\ (resc = "default" \/ repl = "default") ->
   exists msg, configure_board get_file arch board resc repl w = Raise (SystemExit msg)) /\
  (forall arch' board' calls w',
     configure_board get_file arch board resc repl w = Ok (arch', board', calls, w') ->
     arch' = arch /\ board' = resolved_board board /\ board' <> "default").
Proof.
  destruct (String.eqb_spec arch "riscv64") as [->|Hne].
  - rewrite configure_board_riscv64, resolved_board_custom. split; [|split].
    + destruct (String.eqb_spec board "custom") as [->|Hb]; simpl.
      * destruct (String.eqb_spec resc "default") as [->|Hr]; simpl.
        { split; [by intros [r ?]|]. intros (_ & H & _). destruct H. by split; [|left]. }
        destruct (String.eqb_spec repl "default") as [->|Hp]; simpl.
        { split; [by intros [r ?]|]. intros (_ & H & _). destruct H. by split; [|right]. }
        split.
        -- intros [r Hr']. split; [done|]. split; [by intros [_ [?|?]]|].
           destruct (run_fetches _ _ w) as [w'|]; [by exists w'|done].
        -- intros (_ & _ & w' & ->). by eexists.
      * split.
        -- intros [r Hr']. split; [done|]. split; [by intros [? _]|].
           destruct (run_fetches _ _ w) as [w'|]; [by exists w'|done].
        -- intros (_ & _ & w' & ->). by eexists.
    + intros [?|[-> Hd]]; [done|].
      assert (String.eqb resc "default" || String.eqb repl "default" = true) as ->.
      { destruct Hd as [->| ->]; [done|]. by rewrite orb_true_r. }
      by eexists.
    + intros arch' board' calls w' H.
      destruct (_ && _); [done|].
      destruct (run_fetches _ _ w) as [w1|]; [|done].
      injection H as <- <- _ _.
      split; [done|]. split; [done|].
      unfold resolved_board. by destruct (String.eqb_spec board "default").
  - rewrite (configure_board_other _ _ _ _ _ _ Hne). split; [|split; [|done]].
    + split; [by intros [r ?]|]. by intros [? _].
    + intros _. by eexists.
Qed.

Lemma configure_board_returns_witness :
  let failing : string -> string -> unit -> result unit := fun _ _ _ => Raise TypeError in
  ((exists r, configure_board failing "riscv64" "default" "my.resc" "default" () = Ok r) <->
   "riscv64" = "riscv64" /\
   ~ ("default" = "custom" /\ ("my.resc" = "default" \/ "default" = "default")) /\
   exists w', run_fetches failing (fetches "hifive_unleashed" "my.resc" "default") () = Ok w') /\
  (exists msg, configure_board failing "arm" "default" "my.resc" "default" () =
               Raise (SystemExit msg)).
Proof.
  intros failing. split.
  - apply (proj1 (configure_board_returns failing "riscv64" "default" "my.resc" "default" ())).
  - apply (proj1 (proj2 (configure_board_returns failing "arm" "default" "my.resc" "default" ()))).
    by left.
Defined.

(** X24: the files [configure_board] fetches when it returns: one for each
    of [resc] and [repl] that is not [default], [resc] first, each into the
    directory of the board that is returned; for the board [custom] both
    are fetched.  The state it leaves is the one these calls of [get_file]
    lead to. *)
Theorem configure_board_fetches {World : Type}
    (get_file : string -> string -> World -> result World)
    (arch board resc repl arch' board' : string)
    (calls : list get_file_call) (w w' : World) :
  configure_board get_file arch board resc repl w = Ok (arch', board', calls, w') ->
  source <$> calls =
    List.filter (fun s => negb (String.eqb s "default")) [resc; repl] /\
  (forall call, call ∈ calls ->
     exists file, target call = "action/device/" +:+ board' +:+ "/" +:+ file) /\
  (board = "custom" -> source <$> calls = [resc; repl]) /\
  run_fetches get_file calls w = Ok w'.
Proof.
  destruct (String.eqb_spec arch "riscv64") as [->|Hne];
    [|by rewrite (configure_board_other _ _ _ _ _ _ Hne)].
  rewrite configure_board_riscv64.
  destruct (_ && _) eqn:Hc; [done|].
  destruct (run_fetches _ _ w) as [w1|] eqn:Hrun; [|done].
  cbn [mbind result_bind bind]. intros [= <- <- <- <-].
  split; [|split; [|split; [|done]]].
  - unfold fetches. cbn [List.filter].
    by destruct (String.eqb resc "default"), (String.eqb repl "default").
  - unfold fetches. intros call Hin.
    apply elem_of_app in Hin as [Hin|Hin].
    + destruct (String.eqb resc "default"); [by apply elem_of_nil in Hin|].
      apply list_elem_of_singleton in Hin as ->. by exists "init.resc".
    + destruct (String.eqb repl "default"); [by apply elem_of_nil in Hin|].
      apply list_elem_of_singleton in Hin as ->. by exists "platform.repl".
  - intros ->. unfold fetches.
    change (String.eqb (resolved_board "custom") "custom") with true in Hc.
    cbn [andb] in Hc. apply orb_false_elim in Hc as [-> ->]. done.
Qed.

Lemma configure_board_fetches_witness :
  let calls := [mkGetFile "my.resc" "action/device/custom/init.resc";
                mkGetFile "my.repl" "action/device/custom/platform.repl"] in
  let get_file : string -> string -> nat -> result nat := fun _ _ n => Ok (S n) in
  source <$> calls =
    List.filter (fun s => negb (String.eqb s "default")) ["my.resc"; "my.repl"] /\
  (forall call, call ∈ calls ->
     exists file, target call = "action/device/" +:+ "custom" +:+ "/" +:+ file) /\
  ("custom" = "custom" -> source <$> calls = ["my.resc"; "my.repl"]) /\
  run_fetches get_file calls 0%nat = Ok 2%nat.
Proof.
  intros calls get_file.
  apply (configure_board_fetches get_file "riscv64" "custom" "my.resc" "my.repl" "riscv64").
  reflexivity.
Defined.
